(** * Star-formation-history helpers of [prospect/plotting/sfh.py]

    A shallow embedding of the module and the properties checked on it.
    numpy's float64 values are read as real numbers ([R]): rounding, [nan]
    and [inf] are outside the model.  One-dimensional arrays are lists,
    two-dimensional arrays are lists of rows, an array of age bins (shape
    [(N, 2)]) is a list of pairs.  Python exceptions are the [Raise] results of
    a small error monad. *)

From Stdlib Require Import Reals Lra Lia List Bool Arith.
Import ListNotations.

Open Scope R_scope.

(** ** Exceptions *)

Inductive pyerr : Type :=
| NotImplementedError
| TypeError
| KeyError
| AssertionError
| ValueError
| IndexError.

Inductive result (A : Type) : Type :=
| Ok (a : A)
| Raise (e : pyerr).

Arguments Ok {A} a.
Arguments Raise {A} e.

Definition bind {A B : Type} (c : result A) (k : A -> result B) : result B :=
  match c with
  | Ok a => k a
  | Raise e => Raise e
  end.

Notation "x <- c ;; k" := (bind c (fun x => k))
  (at level 61, c at next level, right associativity).
Notation "c ;;; k" := (bind c (fun _ => k))
  (at level 61, right associativity).

Definition raises {A : Type} (c : result A) : Prop :=
  exists e, c = Raise e.

Definition returns {A : Type} (c : result A) : Prop :=
  exists a, c = Ok a.

(** [assert b] *)
Definition py_assert (b : bool) : result unit :=
  if b then Ok tt else Raise AssertionError.

(** A [for] loop (or list comprehension) whose body may raise: the first
    exception ends it. *)
Fixpoint mapM {A B : Type} (f : A -> result B) (l : list A) : result (list B) :=
  match l with
  | [] => Ok []
  | a :: l' => b <- f a ;; bs <- mapM f l' ;; Ok (b :: bs)
  end.

(** ** Real-number comparisons as booleans *)

Definition Rltb (x y : R) : bool := if Rlt_dec x y then true else false.
Definition Rleb (x y : R) : bool := if Rle_dec x y then true else false.

(** ** numpy scalars and arrays *)

(** [x ** y] on floats.  For a positive base it is [exp (y * ln x)]; for any
    base and an integral exponent it is the repeated product; the remaining
    cases ([nan] and [inf] in numpy) have no real value and are given [0]. *)
Definition np_power (x y : R) : R :=
  if Rlt_dec 0 x then Rpower x y
  else if Req_dec_T y (IZR (Int_part y)) then powerRZ x (Int_part y)
  else 0.

(** [np.clip(x, lo, hi)], which is [minimum(maximum(x, lo), hi)]. *)
Definition np_clip (x lo hi : R) : R := Rmin (Rmax x lo) hi.

Definition sum_list (l : list R) : R := fold_right Rplus 0 l.

(** [a.cumsum()] *)
Fixpoint cumsum_from (acc : R) (l : list R) : list R :=
  match l with
  | [] => []
  | x :: l' => (acc + x) :: cumsum_from (acc + x) l'
  end.

Definition cumsum (l : list R) : list R := cumsum_from 0 l.

(** Element-wise binary operation on two 1-d arrays with numpy's
    broadcasting: equal lengths, or one of the two of length one. *)
Fixpoint zip_with (f : R -> R -> R) (xs ys : list R) : list R :=
  match xs, ys with
  | x :: xs', y :: ys' => f x y :: zip_with f xs' ys'
  | _, _ => []
  end.

Definition broadcast (f : R -> R -> R) (xs ys : list R) : result (list R) :=
  if Nat.eqb (length xs) (length ys) then Ok (zip_with f xs ys)
  else match xs, ys with
       | [x], _ => Ok (map (f x) ys)
       | _, [y] => Ok (map (fun x => f x y) xs)
       | _, _ => Raise ValueError
       end.

(** A Python float / numpy float64 scalar, or a 1-d [ndarray]. *)
Inductive npval : Type :=
| Scalar (x : R)
| NdArray (xs : list R).

(** The result of a comparison: a [bool] or a boolean array. *)
Inductive npmask : Type :=
| MScalar (b : bool)
| MArray (bs : list bool).

Definition np_map (f : R -> R) (a : npval) : npval :=
  match a with
  | Scalar x => Scalar (f x)
  | NdArray xs => NdArray (map f xs)
  end.

Definition np_binop (f : R -> R -> R) (a b : npval) : result npval :=
  match a, b with
  | Scalar x, Scalar y => Ok (Scalar (f x y))
  | Scalar x, NdArray ys => Ok (NdArray (map (f x) ys))
  | NdArray xs, Scalar y => Ok (NdArray (map (fun x => f x y) xs))
  | NdArray xs, NdArray ys => r <- broadcast f xs ys ;; Ok (NdArray r)
  end.

Definition np_lt0 (a : npval) : npmask :=
  match a with
  | Scalar x => MScalar (Rltb x 0)
  | NdArray xs => MArray (map (fun x => Rltb x 0) xs)
  end.

(** [len(np.atleast_1d(a))] *)
Definition len_atleast_1d (a : npval) : nat :=
  match a with
  | Scalar _ => 1%nat
  | NdArray xs => length xs
  end.

Fixpoint mask_assign (v : R) (bs : list bool) (xs : list R) : list R :=
  match bs, xs with
  | b :: bs', x :: xs' => (if b then v else x) :: mask_assign v bs' xs'
  | _, _ => xs
  end.

(** [a[mask] = v].  A numpy scalar has no item assignment ([TypeError]); on
    an array a scalar [bool] selects everything or nothing, and a boolean
    array must have the array's length ([IndexError]). *)
Definition np_setitem (a : npval) (mask : npmask) (v : R) : result npval :=
  match a with
  | Scalar _ => Raise TypeError
  | NdArray xs =>
      match mask with
      | MScalar b => Ok (NdArray (if b then map (fun _ => v) xs else xs))
      | MArray bs =>
          if Nat.eqb (length bs) (length xs)
          then Ok (NdArray (mask_assign v bs xs))
          else Raise IndexError
      end
  end.

(** [a.max()] of a 1-d array; empty arrays have no maximum. *)
Definition np_max (l : list R) : result R :=
  match l with
  | [] => Raise ValueError
  | x :: l' => Ok (fold_left Rmax l' x)
  end.

(** [a[-1]] *)
Definition np_last (l : list R) : result R :=
  match l with
  | [] => Raise IndexError
  | x :: l' => Ok (last l' x)
  end.

(** An array used where a single number is needed ([if a > b], a scalar
    operand): a scalar or a one-element array. *)
Definition as_scalar (a : npval) : result R :=
  match a with
  | Scalar x => Ok x
  | NdArray [x] => Ok x
  | NdArray _ => Raise ValueError
  end.

(** ** Parametric star-formation histories *)

Section Parametric.

(** [scipy.special.gamma] and [scipy.special.gammainc] (the regularized
    lower incomplete gamma function). *)
Variable gamma : R -> R.
Variable gammainc : R -> R -> R.

Definition parametric_sfr (tau tage : npval) (power : R)
    (mass logmass : option npval) (times : option (list R)) : result npval :=
  let mass :=
    match mass, logmass with
    | None, Some lm => Some (np_map (np_power 10) lm)
    | _, _ => mass
    end in
  tt <- match times with
        | None => Ok tage
        | Some ts =>
            py_assert (Nat.eqb (len_atleast_1d tage) 1) ;;;
            py_assert (Nat.eqb (len_atleast_1d tau) 1) ;;;
            np_binop Rminus tage (NdArray ts)
        end ;;
  let p := power + 1 in
  x <- np_binop Rdiv tt tau ;;
  let xp := np_map (fun v => np_power v power) x in
  m <- match mass with
       | Some m => Ok m
       | None => Raise TypeError
       end ;;
  num1 <- np_binop Rmult m xp ;;
  y <- np_binop Rdiv (np_map Ropp tt) tau ;;
  num <- np_binop Rmult num1 (np_map exp y) ;;
  let den1 := np_map (fun v => v * gamma p) tau in
  z <- np_binop Rdiv tage tau ;;
  den <- np_binop Rmult den1 (np_map (gammainc p) z) ;;
  psi <- np_binop Rdiv num den ;;
  psi <- np_setitem psi (np_lt0 tt) 0 ;;
  Ok (np_map (fun v => v * 1e-9) psi).

(** [np.linspace(0, stop, n)] *)
Definition linspace0 (stop : R) (n : nat) : list R :=
  match n with
  | 1%nat => [0]
  | _ => map (fun k => INR k * (stop / INR (n - 1))) (seq 0 n)
  end.

(** [np.trapz(y, x)] *)
Fixpoint trapz (y x : list R) : R :=
  match y, x with
  | y0 :: ((y1 :: _) as y'), x0 :: ((x1 :: _) as x') =>
      (x1 - x0) * (y0 + y1) / 2 + trapz y' x'
  | _, _ => 0
  end.

Definition parametric_mwa_numerical (tau tage power : R) (n : nat) : R :=
  let p := power + 1 in
  let t := linspace0 tage n in
  let tavg :=
    trapz (map (fun v => np_power v p * exp (- v / tau)) t) t
    / trapz (map (fun v => np_power v power * exp (- v / tau)) t) t in
  tage - tavg.

Definition parametric_mwa (tau tage power : R) : R :=
  let tt := tage / tau in
  let mwt :=
    gammainc (power + 2) tt * gamma (power + 2) / gammainc (power + 1) tt * tau in
  tage - mwt.

(** The statements of [parametric_cmf] that follow its [raise]. *)
Definition parametric_cmf_rest (tau tage : npval) (times : option (list R))
  : result (list R) :=
  ts <- match times with
        | Some ts => Ok ts
        | None => Raise TypeError
        end ;;
  tmax <- np_max ts ;;
  tage <- as_scalar tage ;;
  if Rltb tmax tage || Rltb tage 0 then Ok (map (fun _ => 0) ts)
  else
    tau <- as_scalar tau ;;
    let tstart := tmax - tage in
    let tt := map (fun t => (t - tstart) / tau) ts in
    let tt := mask_assign 0 (map (fun v => Rltb v 0) tt) tt in
    let cmf := map (gammainc 2) tt in
    c <- np_last cmf ;;
    Ok (map (fun v => v / c) cmf).

Definition parametric_cmf (tau tage : npval) (times : option (list R))
  : result (list R) :=
  @Raise unit NotImplementedError ;;;
  parametric_cmf_rest tau tage times.

End Parametric.

(** ** Non-parametric (binned) star-formation histories *)

(** An array of [N] age bins, shape [(N, 2)]: the pairs [(t_low, t_high)],
    in log10 of years. *)
Definition agebins_t : Type := list (R * R).

(** A 1-d or 2-d float array. *)
Inductive ndarray : Type :=
| A1 (v : list R)
| A2 (m : list (list R)).

(** [np.atleast_2d(a)] *)
Definition atleast_2d (a : ndarray) : list (list R) :=
  match a with
  | A1 v => [v]
  | A2 m => m
  end.

(** [np.squeeze(a)] of an array of shape [(M, K)] with [K > 1]: a single row
    loses its axis. *)
Definition squeeze_rows (m : list (list R)) : ndarray :=
  match m with
  | [v] => A1 v
  | _ => A2 m
  end.

(** The rows of an ensemble result, whether its first axis was squeezed
    away or not. *)
Definition rows_of (a : ndarray) : list (list R) := atleast_2d a.

(** [np.squeeze(v)] of a 1-d array: a single element becomes a 0-d array. *)
Definition squeeze_1d (v : list R) : npval :=
  match v with
  | [x] => Scalar x
  | _ => NdArray v
  end.

(** Subscripting the [agebins] argument: [None] is not subscriptable. *)
Definition subscript (agebins : option agebins_t) : result agebins_t :=
  match agebins with
  | Some b => Ok b
  | None => Raise TypeError
  end.

(** [10**agebins[:, 1] - 10**agebins[:, 0]]: the bin widths in years. *)
Definition bin_widths (b : agebins_t) : list R :=
  map (fun lh => np_power 10 (snd lh) - np_power 10 (fst lh)) b.

(** [10**(agebins - 9)]: the bin edges in Gyr. *)
Definition edges_gyr (b : agebins_t) : agebins_t :=
  map (fun lh => (np_power 10 (fst lh - 9), np_power 10 (snd lh - 9))) b.

(** [np.array(rows)] of a list of 1-d arrays: the rows must agree in
    length. *)
Definition np_array2d (rows : list (list R)) : result (list (list R)) :=
  match rows with
  | [] => Ok []
  | r :: rs =>
      if forallb (fun r' => Nat.eqb (length r') (length r)) rs
      then Ok rows else Raise ValueError
  end.

Section NonParametric.

(** [prospect.models.transforms.logsfr_ratios_to_masses], which is not part
    of this module: called with the squeezed log-mass, the squeezed
    log-SFR ratios and [agebins] as they are passed on. *)
Variable logsfr_ratios_to_masses :
  R -> npval -> option agebins_t -> result (list R).

Definition ratios_to_sfrs (logmass : R) (logsfr_ratios : list R)
    (agebins : option agebins_t) : result (list R) :=
  masses <- logsfr_ratios_to_masses logmass (squeeze_1d logsfr_ratios) agebins ;;
  b <- subscript agebins ;;
  let dt := bin_widths b in
  broadcast Rdiv masses dt.

(** [(ft * masses).sum(axis=-1)] divided by the window, for [masses] the
    array built from the per-member rows: one number per member, and the
    0-d sum of an empty 1-d array when there is no member. *)
Definition nonpar_recent_sfr (logmass : list R) (logsfr_ratios : list (list R))
    (agebins : agebins_t) (sfr_period : R) : result npval :=
  masses <- mapM (fun ms =>
                    logsfr_ratios_to_masses (fst ms) (squeeze_1d (snd ms))
                                            (Some agebins))
                 (combine logmass logsfr_ratios) ;;
  masses <- np_array2d masses ;;
  let ages := edges_gyr agebins in
  let ft := map (fun lh => np_clip ((sfr_period - fst lh) / (snd lh - fst lh)) 0 1)
                ages in
  match masses with
  | [] =>
      prod <- broadcast Rmult ft [] ;;
      Ok (Scalar (sum_list prod / (sfr_period * 1e9)))
  | _ =>
      prods <- mapM (fun row => broadcast Rmult ft row) masses ;;
      Ok (NdArray (map (fun prod => sum_list prod / (sfr_period * 1e9)) prods))
  end.

Definition nonpar_mwa (logmass : list R) (logsfr_ratios : list (list R))
    (agebins : agebins_t) : result (list R) :=
  sfrs <- mapM (fun ms => ratios_to_sfrs (fst ms) (snd ms) (Some agebins))
               (combine logmass logsfr_ratios) ;;
  sfrs <- np_array2d sfrs ;;
  let dtsq := map (fun lh => (np_power 10 (snd lh) ^ 2 - np_power 10 (fst lh) ^ 2) / 2)
                  agebins in
  mwa <- mapM (fun sl =>
                 prod <- broadcast Rmult dtsq (fst sl) ;;
                 Ok (sum_list prod / np_power 10 (snd sl)))
              (combine sfrs logmass) ;;
  Ok (map (fun v => v / 1e9) mwa).

End NonParametric.

(** One row of [sfh_to_cmf]: the masses in reverse bin order, their running
    sum, normalised by its last entry, a zero in front, and reversed back. *)
Definition cmf_row (dt sfr : list R) : result (list R) :=
  prod <- broadcast Rmult sfr dt ;;
  let masses := rev prod in
  let cmfs := cumsum masses in
  total <- np_last cmfs ;;
  let cmfs := map (fun c => c / total) cmfs in
  Ok (rev (0 :: cmfs)).

Definition sfh_to_cmf (sfrs : ndarray) (agebins : option agebins_t)
  : result (list R * ndarray) :=
  let sfrs := atleast_2d sfrs in
  b <- subscript agebins ;;
  let dt := bin_widths b in
  cmfs <- mapM (cmf_row dt) sfrs ;;
  let ages := edges_gyr b in
  last_hi <- match ages with
             | [] => Raise IndexError
             | lh :: rest => Ok (snd (last rest lh))
             end ;;
  let ages := map fst ages ++ [last_hi] in
  Ok (ages, squeeze_rows cmfs).

(** ** Quantiles of an ensemble of binned histories *)

(** [a.reshape(m, -1)] of an array with the entries [flat] (in C order):
    [m] rows of equal length.  numpy refuses [m = 0] and a size that [m] does
    not divide. *)
Fixpoint chunks (k n : nat) (flat : list R) : list (list R) :=
  match n with
  | O => []
  | S n' => firstn k flat :: chunks k n' (skipn k flat)
  end.

Definition reshape_rows (m : nat) (flat : list R) : result (list (list R)) :=
  match m with
  | O => Raise ValueError
  | _ =>
      if Nat.eqb (length flat mod m) 0
      then Ok (chunks (length flat / m) m flat)
      else Raise ValueError
  end.

(** The entries of one member's bins, shape [(nbin, 2)], in C order. *)
Definition flatten_bins (b : agebins_t) : list R :=
  flat_map (fun lh => [fst lh; snd lh]) b.

(** The entries of [np.array([sfrs, sfrs]).transpose(1, 2, 0)] in C order:
    every value twice in a row. *)
Definition duplicate (row : list R) : list R :=
  flat_map (fun s => [s; s]) row.

Definition duplicate_each (rows : list (list R)) : list R :=
  flat_map duplicate rows.

(** The interpolation step of [np.interp] at a point [x] with
    [xp[0] <= x <= xp[-1]]: [j] is the last index whose successor is not
    above [x] (the scan numpy uses on short arrays, and what its bisection
    finds on non-decreasing sample points). *)
Fixpoint interp_at (x : R) (xp fp : list R) : R :=
  match xp, fp with
  | x0 :: ((x1 :: _) as xp'), y0 :: ((y1 :: _) as fp') =>
      if Rle_dec x1 x then interp_at x xp' fp'
      else if Req_dec_T x0 x then y0
      else (y1 - y0) / (x1 - x0) * (x - x0) + y0
  | _ :: _, y0 :: _ => y0
  | _, _ => 0
  end.

Definition interp_point (xp fp : list R) (left right : R) (x : R) : R :=
  match xp with
  | [] => left
  | x0 :: rest =>
      if Rlt_dec (last rest x0) x then right
      else if Rlt_dec x x0 then left
      else interp_at x xp fp
  end.

(** [np.interp(x, xp, fp, left=left, right=right)] *)
Definition np_interp (x xp fp : list R) (left right : R) : result (list R) :=
  match xp with
  | [] => Raise ValueError
  | _ =>
      if Nat.eqb (length xp) (length fp)
      then Ok (map (interp_point xp fp left right) x)
      else Raise ValueError
  end.

(** Sorting, as [np.percentile] does along the reduced axis. *)
Fixpoint insert_sorted (x : R) (l : list R) : list R :=
  match l with
  | [] => [x]
  | y :: l' => if Rle_dec x y then x :: l else y :: insert_sorted x l'
  end.

Definition sort (l : list R) : list R := fold_right insert_sorted [] l.

(** [np.percentile(col, q)] with the default linear method: the entry of the
    sorted data at the virtual index [q/100 * (n - 1)]. *)
Definition percentile_1d (col : list R) (q : R) : R :=
  let a := sort col in
  let v := q / 100 * INR (length a - 1) in
  let lo := Z.to_nat (Int_part v) in
  let hi := Nat.min (lo + 1) (length a - 1) in
  let g := v - INR lo in
  nth lo a 0 + g * (nth hi a 0 - nth lo a 0).

(** Column [j] of a 2-d array. *)
Definition column (m : list (list R)) (j : nat) : list R :=
  map (fun row => nth j row 0) m.

(** [a.T] of a 2-d array with [ncol] columns. *)
Definition transpose (ncol : nat) (m : list (list R)) : list (list R) :=
  map (column m) (seq 0 ncol).

(** [np.percentile(sf, axis=0, q=q)] for a 2-d [sf] with [ncol] columns and a
    list [q]: one row per percentile. *)
Definition np_percentile_axis0 (ncol : nat) (sf : list (list R)) (q : list R)
  : result (list (list R)) :=
  if forallb (fun p => Rleb 0 p && Rleb p 100) q
  then Ok (map (fun p => map (fun col => percentile_1d col p) (transpose ncol sf)) q)
  else Raise ValueError.

(** The per-member curves [sf] of [sfh_quantiles], shape [(M, ntime)]. *)
Definition sfh_samples (tvec : list R) (bins : list agebins_t)
    (sfrs : list (list R)) : result (list (list R)) :=
  tt <- match bins with
        | [] => Raise ValueError
        | _ => Ok (map flatten_bins bins)
        end ;;
  ss <- reshape_rows (length bins) (duplicate_each sfrs) ;;
  sf <- mapM (fun ts => np_interp tvec (fst ts) (snd ts) 0 0) (combine tt ss) ;;
  Ok sf.

Section Quantiles.

(** [prospect.plotting.corner.quantile], which is not part of this module:
    called with the samples, the fractions and the weights. *)
Variable quantile :
  list (list R) -> list R -> list R -> result (list (list R)).

Definition sfh_quantiles (tvec : list R) (bins : list agebins_t)
    (sfrs : list (list R)) (weights : option (list R)) (q : list R)
  : result (list (list R)) :=
  sf <- sfh_samples tvec bins sfrs ;;
  match weights with
  | Some w => quantile (transpose (length tvec) sf) (map (fun p => p / 100) q) w
  | None => np_percentile_axis0 (length tvec) sf q
  end.

End Quantiles.


(** Sorting samples together with their weights. *)
Fixpoint insert_weighted (xw : R * R) (l : list (R * R)) : list (R * R) :=
  match l with
  | [] => [xw]
  | yw :: l' => if Rle_dec (fst xw) (fst yw) then xw :: l
                else yw :: insert_weighted xw l'
  end.

(** The first sample at which the running weight reaches [target]. *)
Fixpoint weighted_pick (target acc : R) (l : list (R * R)) : R :=
  match l with
  | [] => 0
  | [xw] => fst xw
  | xw :: l' => if Rle_dec target (acc + snd xw) then fst xw
                else weighted_pick target (acc + snd xw) l'
  end.

Definition weighted_quantile_1d (col weights : list R) (f : R) : R :=
  let sorted := fold_right insert_weighted [] (combine col weights) in
  weighted_pick (f * sum_list (map snd sorted)) 0 sorted.

(** Modelled from the spec: the weighted-quantile helper [quantile] of
    [.corner], absent from the sources at hand.  Its documented signature is
    [quantile(samples: array[n_members, n_points], q, weights:
    vector[n_members]) -> array[len(q), n_points]]: for every fraction and
    every point, the smallest sample value at which the normalised running
    weight of the sorted samples reaches the fraction. *)
Definition quantile_spec (samples : list (list R)) (q weights : list R)
  : result (list (list R)) :=
  let npoints := match samples with [] => O | row :: _ => length row end in
  Ok (map (fun f => map (fun col => weighted_quantile_1d col weights f)
                        (transpose npoints samples)) q).

(** ** The dispatcher *)

(** The [params] dictionary: a key that is absent is [None]. *)
Record params_t : Type := {
  p_tau : option (list npval);
  p_tage : option (list npval);
  p_mass : option (list npval);
  p_logmass : option (list R);
  p_logsfr_ratios : option (list (list R))
}.

(** [params[key]] *)
Definition getitem {A : Type} (entry : option A) : result A :=
  match entry with
  | Some a => Ok a
  | None => Raise KeyError
  end.

(** The first component of the result: lookback times (parametric path) or
    the bin edges in Gyr (binned path). *)
Inductive lookback_t : Type :=
| LookbackTimes (t : list R)
| LookbackBins (b : agebins_t).

(** The third component: an array (parametric path), or the whole pair that
    [sfh_to_cmf] returns (binned path). *)
Inductive cmfs_t : Type :=
| CmfArray (a : ndarray)
| CmfPair (ages : list R) (c : ndarray).

(** [np.array(l)] of a list of float scalars or of 1-d arrays. *)
Fixpoint scalars_of (l : list npval) : option (list R) :=
  match l with
  | [] => Some []
  | Scalar x :: l' => option_map (cons x) (scalars_of l')
  | NdArray _ :: _ => None
  end.

Fixpoint arrays_of (l : list npval) : option (list (list R)) :=
  match l with
  | [] => Some []
  | NdArray v :: l' => option_map (cons v) (arrays_of l')
  | Scalar _ :: _ => None
  end.

Definition np_array_vals (l : list npval) : result ndarray :=
  match scalars_of l with
  | Some v => Ok (A1 v)
  | None =>
      match arrays_of l with
      | Some rows => rows <- np_array2d rows ;; Ok (A2 rows)
      | None => Raise ValueError
      end
  end.

Definition np_array_rows (rows : list (list R)) : result ndarray :=
  match rows with
  | [] => Ok (A1 [])
  | _ => rows <- np_array2d rows ;; Ok (A2 rows)
  end.

Section Dispatcher.

Variable gamma : R -> R.
Variable gammainc : R -> R -> R.
Variable logsfr_ratios_to_masses :
  R -> npval -> option agebins_t -> result (list R).

(** The body of the loop of the parametric path.  [parametric_sfr] has no
    parameter named [time]: the keyword lands in its [**extras], and its
    [times] stays [None]. *)
Definition parametric_member (time : list R) (m : npval * (npval * npval))
  : result (npval * list R) :=
  let '(tau, (tage, mass)) := m in
  sfh <- parametric_sfr gamma gammainc tau tage 1 (Some mass) None None ;;
  cmf <- parametric_cmf gammainc tau tage (Some time) ;;
  Ok (sfh, cmf).

Definition params_to_sfh (params : params_t) (time : option (list R))
    (agebins : option agebins_t)
  : result (lookback_t * ndarray * cmfs_t) :=
  match time with
  | Some time =>
      taus <- getitem (p_tau params) ;;
      tages <- getitem (p_tage params) ;;
      masses <- getitem (p_mass params) ;;
      members <- mapM (parametric_member time)
                      (combine taus (combine tages masses)) ;;
      tmax <- np_max time ;;
      let lookback := map (fun t => tmax - t) time in
      sfhs <- np_array_vals (map fst members) ;;
      cmfs <- np_array_rows (map snd members) ;;
      Ok (LookbackTimes lookback, sfhs, CmfArray cmfs)
  | None =>
      logmass <- getitem (p_logmass params) ;;
      logsfr_ratios <- getitem (p_logsfr_ratios params) ;;
      sfhs <- mapM (fun ms => ratios_to_sfrs logsfr_ratios_to_masses
                                             (fst ms) (snd ms) agebins)
                   (combine logmass logsfr_ratios) ;;
      sfhs <- np_array_rows sfhs ;;
      cmfs <- sfh_to_cmf sfhs agebins ;;
      b <- subscript agebins ;;
      let lookback := edges_gyr b in
      Ok (LookbackBins lookback, sfhs, CmfPair (fst cmfs) (snd cmfs))
  end.

End Dispatcher.

(** ** The documented laws, for comparison with the code *)

(** The star-formation rate of the delayed-exponential law at lookback time
    [t], in solar masses per year:
    [1e-9 * mass * ((tage - t)/tau)^power * exp(-(tage - t)/tau)
     / (tau * Gamma(power+1) * P(power+1, tage/tau))]. *)
Definition sfr_law (gamma : R -> R) (gammainc : R -> R -> R)
    (tau tage power mass t : R) : R :=
  1e-9 * mass * np_power ((tage - t) / tau) power * exp (- ((tage - t) / tau))
  / (tau * gamma (power + 1) * gammainc (power + 1) (tage / tau)).

(** A list that never increases / never decreases from one entry to the
    next. *)
Fixpoint non_increasing (l : list R) : Prop :=
  match l with
  | x :: ((y :: _) as l') => y <= x /\ non_increasing l'
  | _ => True
  end.

Fixpoint non_decreasing (l : list R) : Prop :=
  match l with
  | x :: ((y :: _) as l') => x <= y /\ non_decreasing l'
  | _ => True
  end.

(** A cumulative mass fraction that rises from 0 to 1 along the array (to
    within 1e-9 at both ends), and one that falls from 1 to 0. *)
Definition cmf_rising (c : list R) : Prop :=
  non_decreasing c /\ Rabs (hd 1 c - 0) <= 1e-9 /\ Rabs (last c 0 - 1) <= 1e-9.

Definition cmf_falling (c : list R) : Prop :=
  non_increasing c /\ hd 0 c = 1 /\ last c 1 = 0.

(** The bins of a bin set are proper intervals: [t_low < t_high]. *)
Definition proper_bins (b : agebins_t) : Prop :=
  Forall (fun lh => fst lh < snd lh) b.

(** What a member of an ensemble must satisfy for its curve to be defined
    and monotone: one rate per bin, no negative rate, and a positive total
    formed mass. *)
Definition member_ok (bins : agebins_t) (row : list R) : Prop :=
  length row = length bins
  /\ Forall (fun s => 0 <= s) row
  /\ 0 < sum_list (zip_with Rmult row (bin_widths bins)).


(** The masses the transform returns for the members of an ensemble, one
    per bin. *)
Definition ensemble_masses
    (transform : R -> npval -> option agebins_t -> result (list R))
    (logmass : list R) (logsfr_ratios : list (list R)) (bins : agebins_t)
    (masses : list (list R)) : Prop :=
  mapM (fun ms => transform (fst ms) (squeeze_1d (snd ms)) (Some bins))
       (combine logmass logsfr_ratios) = Ok masses
  /\ Forall (fun row => length row = length bins) masses.

(** The shapes [sfh_quantiles] documents: [M] members, each with [nbin]
    bins and [nbin] rates. *)
Definition matching_shapes (nbin : nat) (bins : list agebins_t)
    (sfrs : list (list R)) : Prop :=
  length bins = length sfrs
  /\ Forall (fun b => length b = nbin) bins
  /\ Forall (fun s => length s = nbin) sfrs.

(** Bins in linear time that are proper intervals, each starting at or after
    the end of the one before. *)
Fixpoint ordered_bins (b : agebins_t) : Prop :=
  match b with
  | [] => True
  | lh :: rest =>
      fst lh < snd lh
      /\ match rest with
         | [] => True
         | lh' :: _ => snd lh <= fst lh'
         end
      /\ ordered_bins rest
  end.

(** The curve of one member on the grid: its rates, each at both edges of
    its bin, interpolated with 0 outside. *)
Definition member_curve (tvec : list R) (member : agebins_t * list R) : list R :=
  map (interp_point (flatten_bins (fst member)) (duplicate (snd member)) 0 0) tvec.

(** ** Sample inputs *)

(** Two bins, [1..10] and [10..100] years. *)
Definition two_bins : agebins_t := [(0, 1); (1, 2)].

(** A [params] dictionary with every key present and no ensemble member. *)
Definition empty_params : params_t :=
  {| p_tau := Some []; p_tage := Some []; p_mass := Some [];
     p_logmass := Some []; p_logsfr_ratios := Some [] |}.


(** A mass transform that puts 5 solar masses in each of two bins. *)
Definition five_each (logmass : R) (ratios : npval) (bins : option agebins_t)
  : result (list R) := Ok [5; 5].

(** One member with a single bin [0..1] at rate 3, looked at on a grid of
    two times, one inside the bin and one beyond it. *)
Definition sample_tvec : list R := [1 / 2; 2].
Definition sample_bins : list agebins_t := [[(0, 1)]].
Definition sample_sfrs : list (list R) := [[3]].

(** ** Mass-weighted age: the pieces of the comparison *)

(** The Taylor polynomial of [exp] of degree [n]. *)
Fixpoint exp_taylor (n : nat) (x : R) : R :=
  match n with
  | O => 1
  | S n' => exp_taylor n' x + x ^ n / INR (fact n)
  end.

(** The grid of [np.linspace(0, stop, n)] with step [h], and the integrands
    [t**j * exp(-t/tau)] on it, for [r = exp(-h/tau)]. *)
Definition grid (h : R) (k : nat) : R := INR k * h.
Definition integrand (h r : R) (j k : nat) : R := grid h k ^ j * r ^ k.

(** What the closed form needs of scipy's special functions at [x]: the
    values of Gamma at 2 and 3 and of the regularized incomplete gamma
    function P(a, x) for a = 1, 2, 3. *)
Definition special_functions_at (gamma : R -> R) (gammainc : R -> R -> R)
    (x : R) : Prop :=
  gamma 2 = 1 /\ gamma 3 = 2
  /\ gammainc 1 x = 1 - exp (- x)
  /\ gammainc 2 x = 1 - (1 + x) * exp (- x)
  /\ gammainc 3 x = 1 - (1 + x + x ^ 2 / 2) * exp (- x).

(** The trapezoid sum of [t**j * exp(-t/tau)] over the 1000-point grid of
    step [h], with [r = exp(-h/tau)]. *)
Definition trapezoid_sum (h r : R) (j : nat) : R :=
  trapz (map (integrand h r j) (seq 0 1000)) (map (grid h) (seq 0 1000)).

(** Gamma at 1, 2 and 3, and the regularized incomplete gamma function at
    a = 1, 2, 3, in closed form. *)
Definition gamma_small (a : R) : R := if Req_dec_T a 3 then 2 else 1.

Definition gammainc_small (a x : R) : R :=
  if Req_dec_T a 1 then 1 - exp (- x)
  else if Req_dec_T a 2 then 1 - (1 + x) * exp (- x)
  else 1 - (1 + x + x ^ 2 / 2) * exp (- x).

(** ** Quantities the further properties are stated with *)

(** The middle of each bin in years, [(10**t_low + 10**t_high) / 2]. *)
Definition bin_midpoints (b : agebins_t) : list R :=
  map (fun lh => (np_power 10 (fst lh) + np_power 10 (snd lh)) / 2) b.

(** A list that grows strictly from one entry to the next. *)
Fixpoint strictly_increasing (l : list R) : Prop :=
  match l with
  | x :: ((y :: _) as l') => x < y /\ strictly_increasing l'
  | _ => True
  end.

(** The fraction of a member's mass in the bins from index [i] on. *)
Definition mass_fraction_from (masses : list R) (i : nat) : R :=
  sum_list (skipn i masses) / sum_list masses.

(** ** Further sample inputs *)

(** A [params] dictionary without any key. *)
Definition no_keys : params_t :=
  {| p_tau := None; p_tage := None; p_mass := None;
     p_logmass := None; p_logsfr_ratios := None |}.

(** A [params] dictionary of the binned kind with one member: log-mass 1
    and one log-ratio. *)
Definition one_member : params_t :=
  {| p_tau := None; p_tage := None; p_mass := None;
     p_logmass := Some [1]; p_logsfr_ratios := Some [[0]] |}.

(** * Properties *)

(** ** Basic facts *)

Lemma bind_ok {A B : Type} (a : A) (k : A -> result B) :
  bind (Ok a) k = k a.
Proof. reflexivity. Qed.

Lemma bind_raise {A B : Type} (e : pyerr) (k : A -> result B) :
  bind (Raise e) k = Raise e.
Proof. reflexivity. Qed.

Lemma Rltb_true (x y : R) : x < y -> Rltb x y = true.
Proof. intros H; unfold Rltb; destruct (Rlt_dec x y); [reflexivity | contradiction]. Qed.

Lemma Rltb_false (x y : R) : y <= x -> Rltb x y = false.
Proof. intros H; unfold Rltb; destruct (Rlt_dec x y); [lra | reflexivity]. Qed.

Lemma Rleb_true (x y : R) : x <= y -> Rleb x y = true.
Proof. intros H; unfold Rleb; destruct (Rle_dec x y); [reflexivity | contradiction]. Qed.

Lemma np_power_pos (x y : R) : 0 < x -> np_power x y = Rpower x y.
Proof. intros H; unfold np_power; destruct (Rlt_dec 0 x); [reflexivity | contradiction]. Qed.

Lemma np_power_10 (y : R) : np_power 10 y = Rpower 10 y.
Proof. apply np_power_pos; lra. Qed.

Lemma np_power_10_pos (y : R) : 0 < np_power 10 y.
Proof. rewrite np_power_10; unfold Rpower; apply exp_pos. Qed.

Lemma np_power_10_lt (x y : R) : x < y -> np_power 10 x < np_power 10 y.
Proof.
  intros H; rewrite !np_power_10; apply Rpower_lt; lra.
Qed.

Lemma np_power_10_le (x y : R) : x <= y -> np_power 10 x <= np_power 10 y.
Proof.
  intros [H | ->]; [left; now apply np_power_10_lt | right; reflexivity].
Qed.

Lemma np_power_10_0 : np_power 10 0 = 1.
Proof. rewrite np_power_10; apply Rpower_O; lra. Qed.

Lemma np_power_10_1 : np_power 10 1 = 10.
Proof. rewrite np_power_10; apply Rpower_1; lra. Qed.

(** [10**(x - 9)] is [10**x / 1e9]. *)
Lemma np_power_10_minus9 (x : R) : np_power 10 (x - 9) = np_power 10 x / 1e9.
Proof.
  rewrite !np_power_10. unfold Rminus. rewrite Rpower_plus, Rpower_Ropp.
  replace 9 with (INR 9) by (simpl; lra).
  rewrite Rpower_pow by lra. unfold Rdiv. f_equal. f_equal. simpl. lra.
Qed.

Lemma broadcast_same_length (f : R -> R -> R) (xs ys : list R) :
  length xs = length ys -> broadcast f xs ys = Ok (zip_with f xs ys).
Proof.
  intros H. unfold broadcast. rewrite H, Nat.eqb_refl. reflexivity.
Qed.

Lemma zip_with_map (f : R -> R -> R) {A : Type} (g h : A -> R) (l : list A) :
  zip_with f (map g l) (map h l) = map (fun a => f (g a) (h a)) l.
Proof.
  induction l as [| a l IH]; simpl; [reflexivity | now rewrite IH].
Qed.

Lemma zip_with_length (f : R -> R -> R) (xs ys : list R) :
  length xs = length ys -> length (zip_with f xs ys) = length xs.
Proof.
  revert ys; induction xs as [| x xs IH]; intros [| y ys] H; simpl in *;
    try reflexivity; try discriminate.
  f_equal. apply IH. now injection H.
Qed.

(** ** Parametric histories *)

Section ParametricFacts.

Variable gamma : R -> R.
Variable gammainc : R -> R -> R.

(** Zeroing the entries with a negative time-since-onset, entry by entry. *)
Lemma mask_assign_map (f : R -> R) (g : R -> R) (ts : list R) :
  mask_assign 0 (map (fun x => Rltb x 0) (map f ts)) (map g ts)
  = map (fun t => if Rltb (f t) 0 then 0 else g t) ts.
Proof.
  induction ts as [| t ts IH]; simpl; [reflexivity |].
  now rewrite IH.
Qed.

(** The value the code assigns to [psi], times the unit factor, is the
    documented law. *)
Lemma psi_is_sfr_law (tau tage power mass t : R) :
  mass * np_power ((tage - t) / tau) power * exp (- (tage - t) / tau)
  / (tau * gamma (power + 1) * gammainc (power + 1) (tage / tau)) * 1e-9
  = sfr_law gamma gammainc tau tage power mass t.
Proof.
  unfold sfr_law.
  replace (- (tage - t) / tau) with (- ((tage - t) / tau))
    by (unfold Rdiv; ring).
  unfold Rdiv; ring.
Qed.

(** C5: every call of [parametric_cmf], whatever its arguments, raises
    [NotImplementedError]; it never returns a value. *)
Theorem parametric_cmf_not_implemented
    (tau tage : npval) (times : option (list R)) :
  parametric_cmf gammainc tau tage times = Raise NotImplementedError
  /\ ~ returns (parametric_cmf gammainc tau tage times).
Proof.
  unfold parametric_cmf. rewrite bind_raise. split; [reflexivity |].
  intros [a Ha]. discriminate Ha.
Qed.

(** C3: with float scalars for [tau], [tage] and the mass and [times]
    omitted, [parametric_sfr] does not return the current rate: [psi] is a
    numpy scalar, and the masked assignment [psi[tt < 0] = 0] raises
    [TypeError]. *)
Theorem parametric_sfr_scalar_no_times
    (tau tage power mass : R) (logmass : option npval) :
  parametric_sfr gamma gammainc (Scalar tau) (Scalar tage) power
                 (Some (Scalar mass)) logmass None
  = Raise TypeError.
Proof. reflexivity. Qed.

(** With one-element arrays for [tau] and [tage] the same call does return
    the law at lookback time 0 (or 0 when [tage] is negative). *)
Lemma parametric_sfr_array_no_times (tau tage power mass : R) :
  parametric_sfr gamma gammainc (NdArray [tau]) (NdArray [tage]) power
                 (Some (Scalar mass)) None None
  = Ok (NdArray [if Rltb tage 0 then 0
                 else sfr_law gamma gammainc tau tage power mass 0]).
Proof.
  unfold parametric_sfr. simpl.
  destruct (Rltb tage 0); simpl.
  - do 3 f_equal. lra.
  - do 3 f_equal.
    rewrite <- psi_is_sfr_law.
    replace (tage - 0) with tage by ring. reflexivity.
Qed.

(** C4: for a vector of lookback times and scalar [tau], [tage], mass and
    power, [parametric_sfr] returns, time by time, the documented law, and
    exactly 0 wherever [tage - t < 0]. *)
Theorem parametric_sfr_times
    (tau tage power mass : R) (times : list R) :
  parametric_sfr gamma gammainc (Scalar tau) (Scalar tage) power
                 (Some (Scalar mass)) None (Some times)
  = Ok (NdArray (map (fun t => if Rltb (tage - t) 0 then 0
                               else sfr_law gamma gammainc tau tage power mass t)
                     times)).
Proof.
  unfold parametric_sfr. simpl.
  rewrite !map_map.
  rewrite broadcast_same_length by now rewrite !length_map.
  rewrite zip_with_map. simpl.
  rewrite !map_map, !length_map, Nat.eqb_refl. simpl.
  do 2 f_equal.
  rewrite <- (map_map (fun t => tage - t) (fun x => Rltb x 0)).
  rewrite mask_assign_map, map_map.
  apply map_ext. intros t.
  destruct (Rltb (tage - t) 0); [lra |].
  apply psi_is_sfr_law.
Qed.

End ParametricFacts.

(** ** Cumulative mass fractions of binned histories *)

Lemma cumsum_from_length (a : R) (l : list R) :
  length (cumsum_from a l) = length l.
Proof.
  revert a; induction l as [| x l IH]; intros a; simpl; [reflexivity |].
  now rewrite IH.
Qed.

Lemma cumsum_from_last (a d : R) (l : list R) :
  l <> [] -> last (cumsum_from a l) d = a + sum_list l.
Proof.
  revert a; induction l as [| x l IH]; intros a Hl; [contradiction |].
  destruct l as [| y l].
  - simpl. ring.
  - change (cumsum_from a (x :: y :: l))
      with ((a + x) :: cumsum_from (a + x) (y :: l)).
    change (last ((a + x) :: cumsum_from (a + x) (y :: l)) d)
      with (last (cumsum_from (a + x) (y :: l)) d).
    rewrite IH by discriminate. simpl. ring.
Qed.

Lemma cumsum_from_non_decreasing (a : R) (l : list R) :
  Forall (fun x => 0 <= x) l -> non_decreasing (a :: cumsum_from a l).
Proof.
  revert a; induction l as [| x l IH]; intros a H; simpl; [exact I |].
  inversion H as [| ? ? Hx Hl]; subst.
  split; [lra | apply (IH (a + x) Hl)].
Qed.

Lemma non_decreasing_scale (k : R) (l : list R) :
  0 <= k -> non_decreasing l -> non_decreasing (map (fun c => c * k) l).
Proof.
  intros Hk. induction l as [| x l IH]; simpl; [trivial |].
  destruct l as [| y l]; simpl; [trivial |].
  intros [Hxy Hl]. split; [nra | apply IH, Hl].
Qed.

Lemma non_increasing_snoc (l : list R) (a : R) :
  non_increasing l -> (forall d, l <> [] -> a <= last l d) ->
  non_increasing (l ++ [a]).
Proof.
  induction l as [| x l IH]; intros Hl Ha; simpl; [exact I |].
  destruct l as [| y l].
  - simpl. split; [apply (Ha 0); discriminate | exact I].
  - destruct Hl as [Hyx Hl]. split; [exact Hyx |].
    apply IH; [exact Hl |].
    intros d _. apply (Ha d). discriminate.
Qed.

Lemma last_rev_hd (l : list R) (d : R) : last (rev l) d = hd d l.
Proof.
  destruct l as [| x l]; simpl; [reflexivity | apply last_last].
Qed.

Lemma hd_rev_last (l : list R) (d : R) : hd d (rev l) = last l d.
Proof.
  rewrite <- (rev_involutive l) at 2. now rewrite last_rev_hd.
Qed.

Lemma non_decreasing_rev (l : list R) :
  non_decreasing l -> non_increasing (rev l).
Proof.
  induction l as [| x l IH]; intros H; simpl; [exact I |].
  apply non_increasing_snoc.
  - apply IH. destruct l; [exact I | apply H].
  - intros d Hne. rewrite last_rev_hd.
    destruct l as [| y l]; [now elim Hne |]. simpl. apply H.
Qed.

Lemma sum_list_app (l1 l2 : list R) :
  sum_list (l1 ++ l2) = sum_list l1 + sum_list l2.
Proof.
  induction l1 as [| x l1 IH]; simpl; [ring | rewrite IH; ring].
Qed.

Lemma sum_list_rev (l : list R) : sum_list (rev l) = sum_list l.
Proof.
  induction l as [| x l IH]; simpl; [reflexivity |].
  rewrite sum_list_app, IH. simpl. ring.
Qed.

Lemma zip_with_nonneg (xs ys : list R) :
  Forall (fun x => 0 <= x) xs -> Forall (fun y => 0 <= y) ys ->
  Forall (fun z => 0 <= z) (zip_with Rmult xs ys).
Proof.
  intros Hx; revert ys; induction Hx as [| x xs Hx0 Hxs IH]; intros ys Hy.
  - constructor.
  - destruct Hy as [| y ys Hy0 Hys]; simpl; constructor;
      [now apply Rmult_le_pos | now apply IH].
Qed.

Lemma bin_widths_length (b : agebins_t) : length (bin_widths b) = length b.
Proof. apply length_map. Qed.

Lemma bin_widths_pos (b : agebins_t) :
  proper_bins b -> Forall (fun w => 0 < w) (bin_widths b).
Proof.
  intros H. unfold bin_widths. apply Forall_map.
  eapply Forall_impl; [| exact H].
  intros [lo hi] Hlh; simpl in *.
  pose proof (np_power_10_lt lo hi Hlh). lra.
Qed.

Lemma last_cons_default {A : Type} (l : list A) (x d : A) :
  last l x = last (x :: l) d.
Proof.
  revert x d; induction l as [| y l IH]; intros x d; [reflexivity |].
  change (last (x :: y :: l) d) with (last (y :: l) d).
  now rewrite <- (IH y x), <- (IH y d).
Qed.

Lemma np_last_ok (l : list R) (d : R) : l <> [] -> np_last l = Ok (last l d).
Proof.
  destruct l as [| x l]; intros H; [contradiction |].
  unfold np_last. f_equal. apply last_cons_default.
Qed.

Lemma last_map_nonempty (f : R -> R) (l : list R) (d d' : R) :
  l <> [] -> last (map f l) d = f (last l d').
Proof.
  induction l as [| x l IH]; intros H; [contradiction |].
  destruct l as [| y l]; [reflexivity |].
  change (last (map f (x :: y :: l)) d) with (last (map f (y :: l)) d).
  rewrite IH by discriminate. reflexivity.
Qed.

(** One member: non-negative rates on bins of positive width, with a
    positive total mass, give a curve of one more point than there are bins
    that falls from 1 to 0. *)
Lemma cmf_row_falling (dt sfr : list R) :
  length sfr = length dt ->
  Forall (fun w => 0 < w) dt ->
  Forall (fun s => 0 <= s) sfr ->
  0 < sum_list (zip_with Rmult sfr dt) ->
  exists c, cmf_row dt sfr = Ok c /\ length c = S (length dt) /\ cmf_falling c.
Proof.
  intros Hlen Hdt Hsfr Htot.
  unfold cmf_row. rewrite broadcast_same_length by exact Hlen.
  rewrite bind_ok.
  set (ms := rev (zip_with Rmult sfr dt)).
  assert (Hms : ms <> []).
  { intros E. unfold ms in E. apply (f_equal (@rev R)) in E.
    rewrite rev_involutive in E. simpl in E. rewrite E in Htot.
    simpl in Htot. lra. }
  assert (Hpos : Forall (fun x => 0 <= x) ms).
  { unfold ms. apply Forall_rev. apply zip_with_nonneg; [exact Hsfr |].
    eapply Forall_impl; [| exact Hdt]. simpl. intros; lra. }
  assert (Hcs : cumsum ms <> []).
  { intros E. apply (f_equal (@length R)) in E. unfold cumsum in E.
    rewrite cumsum_from_length in E. destruct ms; [now elim Hms | discriminate]. }
  rewrite (np_last_ok _ 0 Hcs). rewrite bind_ok.
  assert (Htotal : last (cumsum ms) 0 = sum_list (zip_with Rmult sfr dt)).
  { unfold cumsum. rewrite cumsum_from_last by exact Hms.
    unfold ms. rewrite sum_list_rev. ring. }
  rewrite Htotal.
  set (T := sum_list (zip_with Rmult sfr dt)) in *.
  eexists; split; [reflexivity |]. split; [| split; [| split]].
  - rewrite length_rev. simpl. rewrite length_map. unfold cumsum.
    rewrite cumsum_from_length. unfold ms.
    rewrite length_rev, zip_with_length by exact Hlen. now rewrite Hlen.
  - apply non_decreasing_rev.
    assert (Hk : 0 <= / T) by (left; now apply Rinv_0_lt_compat).
    pose proof (non_decreasing_scale (/ T) (0 :: cumsum ms) Hk
                  (cumsum_from_non_decreasing 0 ms Hpos)) as Hnd.
    simpl map in Hnd. rewrite Rmult_0_l in Hnd. exact Hnd.
  - rewrite hd_rev_last.
    destruct (cumsum ms) as [| c0 cs] eqn:Ecs; [now elim Hcs |].
    change (last (0 :: map (fun c => c / T) (c0 :: cs)) 0)
      with (last (map (fun c => c / T) (c0 :: cs)) 0).
    rewrite (last_map_nonempty _ _ 0 0) by discriminate.
    rewrite Htotal. field. lra.
  - rewrite last_rev_hd. reflexivity.
Qed.

Lemma mapM_Forall {A B : Type} (f : A -> result B) (P : B -> Prop) (l : list A) :
  Forall (fun a => exists b, f a = Ok b /\ P b) l ->
  exists bs, mapM f l = Ok bs /\ length bs = length l /\ Forall P bs.
Proof.
  induction 1 as [| a l [b [Hb HP]] _ [bs [Hbs [Hlen HF]]]]; simpl.
  - exists []. repeat split; constructor.
  - exists (b :: bs). rewrite Hb, Hbs. simpl.
    repeat split; [now rewrite Hlen | now constructor].
Qed.

Lemma rows_of_squeeze_rows (m : list (list R)) : rows_of (squeeze_rows m) = m.
Proof. destruct m as [| v [| w m]]; reflexivity. Qed.

(** C1 (as the code has it): for an ensemble of non-negative rates on [N]
    proper bins, every member with a positive total mass, [sfh_to_cmf]
    returns an age grid of [N + 1] points and, for every member, [N + 1]
    values that never increase along the age axis, the first exactly 1 and
    the last exactly 0. *)
Theorem sfh_to_cmf_falling (sfrs : list (list R)) (bins : agebins_t) :
  bins <> [] ->
  proper_bins bins ->
  Forall (member_ok bins) sfrs ->
  exists ages cmfs,
    sfh_to_cmf (A2 sfrs) (Some bins) = Ok (ages, cmfs)
    /\ length ages = S (length bins)
    /\ length (rows_of cmfs) = length sfrs
    /\ Forall (fun c => length c = S (length bins) /\ cmf_falling c)
              (rows_of cmfs).
Proof.
  intros Hne Hproper Hrows.
  unfold sfh_to_cmf. simpl atleast_2d. simpl subscript. rewrite bind_ok.
  destruct (mapM_Forall (cmf_row (bin_widths bins))
              (fun c => length c = S (length bins) /\ cmf_falling c) sfrs)
    as [cs [Hcs [Hlen HF]]].
  { eapply Forall_impl; [| exact Hrows].
    intros row (Hl & Hnn & Htot).
    destruct (cmf_row_falling (bin_widths bins) row) as [c [Hc [Hcl Hcf]]];
      try assumption.
    - now rewrite bin_widths_length.
    - now apply bin_widths_pos.
    - exists c. rewrite bin_widths_length in Hcl. auto. }
  rewrite Hcs, bind_ok.
  destruct bins as [| b0 bins']; [now elim Hne |].
  simpl edges_gyr. cbv beta iota. rewrite bind_ok.
  eexists; eexists; split; [reflexivity |].
  rewrite rows_of_squeeze_rows. repeat split; try assumption.
  rewrite length_app. simpl. unfold edges_gyr. rewrite !length_map. lia.
Qed.

Lemma np_power_10_2 : np_power 10 2 = 100.
Proof.
  rewrite np_power_10. replace 2 with (INR 2) by (simpl; lra).
  rewrite Rpower_pow by lra. simpl. lra.
Qed.

Lemma two_bins_widths : bin_widths two_bins = [9; 90].
Proof.
  unfold bin_widths, two_bins. simpl.
  rewrite np_power_10_0, np_power_10_1, np_power_10_2.
  repeat f_equal; lra.
Qed.

Lemma sfh_to_cmf_falling_witness :
  exists ages cmfs,
    sfh_to_cmf (A2 [[1; 1]]) (Some two_bins) = Ok (ages, cmfs)
    /\ length ages = S (length two_bins)
    /\ length (rows_of cmfs) = length [[1; 1]]
    /\ Forall (fun c => length c = S (length two_bins) /\ cmf_falling c)
              (rows_of cmfs).
Proof.
  apply (sfh_to_cmf_falling [[1; 1]] two_bins).
  - discriminate.
  - repeat constructor; simpl; lra.
  - constructor; [| constructor].
    split; [reflexivity |]. split; [repeat constructor; lra |].
    rewrite two_bins_widths. simpl. lra.
Defined.

(** C1 as written fails: on two bins with equal rates the returned values
    are [1, 10/11, 0] along increasing age, which is not a curve rising from
    0 to 1. *)
Lemma sfh_to_cmf_not_rising :
  sfh_to_cmf (A2 [[1; 1]]) (Some two_bins)
  = Ok ([np_power 10 (0 - 9); np_power 10 (1 - 9); np_power 10 (2 - 9)],
        A1 [1; 10 / 11; 0])
  /\ 0 < sum_list (zip_with Rmult [1; 1] (bin_widths two_bins))
  /\ ~ cmf_rising [1; 10 / 11; 0].
Proof.
  split; [| split].
  - unfold sfh_to_cmf. simpl atleast_2d. simpl subscript. rewrite bind_ok.
    rewrite two_bins_widths. unfold mapM, cmf_row. simpl.
    replace ((0 + 1 * 90 + 1 * 9) / (0 + 1 * 90 + 1 * 9)) with 1 by (field; lra).
    replace ((0 + 1 * 90) / (0 + 1 * 90 + 1 * 9)) with (10 / 11) by (field; lra).
    reflexivity.
  - rewrite two_bins_widths. simpl. lra.
  - intros (Hnd & Hfirst & _). simpl in Hfirst.
    rewrite Rabs_right in Hfirst; lra.
Qed.

(** ** The dispatcher *)

Section DispatcherFacts.

Variable gamma : R -> R.
Variable gammainc : R -> R -> R.
Variable logsfr_ratios_to_masses :
  R -> npval -> option agebins_t -> result (list R).

(** Without [agebins] no member gets through [ratios_to_sfrs]. *)
Lemma ratios_to_sfrs_no_bins (logmass : R) (ratios : list R) :
  raises (ratios_to_sfrs logsfr_ratios_to_masses logmass ratios None).
Proof.
  unfold ratios_to_sfrs.
  destruct (logsfr_ratios_to_masses logmass (squeeze_1d ratios) None) as [ms | e].
  - exists TypeError. reflexivity.
  - exists e. reflexivity.
Qed.

Lemma mapM_raises_first {A B : Type} (f : A -> result B) (a : A) (l : list A) :
  raises (f a) -> raises (mapM f (a :: l)).
Proof. intros [e He]. exists e. simpl. now rewrite He. Qed.

Lemma bind_raises {A B : Type} (c : result A) (k : A -> result B) :
  raises c -> raises (bind c k).
Proof. intros [e ->]. exists e. reflexivity. Qed.

(** With neither a time grid nor age bins the call raises: the binned path
    is entered and fails on the missing bins. *)
Lemma dispatch_neither_raises (params : params_t) :
  raises (params_to_sfh gamma gammainc logsfr_ratios_to_masses
                        params None None).
Proof.
  unfold params_to_sfh.
  destruct (p_logmass params) as [logmass |]; [| exists KeyError; reflexivity].
  destruct (p_logsfr_ratios params) as [ratios |]; [| exists KeyError; reflexivity].
  simpl getitem. rewrite !bind_ok.
  destruct (combine logmass ratios) as [| ms l].
  - exists TypeError. reflexivity.
  - apply bind_raises, mapM_raises_first, ratios_to_sfrs_no_bins.
Qed.

(** On the parametric path every member ends in an exception: from
    [parametric_sfr], or else from [parametric_cmf]. *)
Lemma parametric_member_raises (time : list R) (m : npval * (npval * npval)) :
  raises (parametric_member gamma gammainc time m).
Proof.
  destruct m as [tau [tage mass]]. unfold parametric_member.
  destruct (parametric_sfr gamma gammainc tau tage 1 (Some mass) None None)
    as [sfh | e].
  - exists NotImplementedError. reflexivity.
  - exists e. reflexivity.
Qed.

(** So with a time grid the call returns only for an ensemble without
    members, whatever [agebins] is. *)
Lemma dispatch_parametric_raises (params : params_t) (time : list R)
    (agebins : option agebins_t) (taus tages masses : list npval) :
  p_tau params = Some taus -> p_tage params = Some tages ->
  p_mass params = Some masses ->
  combine taus (combine tages masses) <> [] ->
  raises (params_to_sfh gamma gammainc logsfr_ratios_to_masses
                        params (Some time) agebins).
Proof.
  intros Ht Hg Hm Hne. unfold params_to_sfh. rewrite Ht, Hg, Hm.
  simpl getitem. rewrite !bind_ok.
  destruct (combine taus (combine tages masses)) as [| m l];
    [now elim Hne |].
  apply bind_raises, mapM_raises_first, parametric_member_raises.
Qed.

(** C2 (as the code has it): a time grid alone decides the path.  When it
    is supplied the parametric path runs and [agebins] is never looked at,
    so supplying both is not reported; when neither is supplied the call
    raises, from the binned path failing on the missing bins. *)
Theorem params_to_sfh_path_by_time (params : params_t) (time : list R) :
  (forall agebins : option agebins_t,
      params_to_sfh gamma gammainc logsfr_ratios_to_masses
                    params (Some time) agebins
      = params_to_sfh gamma gammainc logsfr_ratios_to_masses
                      params (Some time) None)
  /\ raises (params_to_sfh gamma gammainc logsfr_ratios_to_masses
                           params None None).
Proof.
  split; [reflexivity | apply dispatch_neither_raises].
Qed.

End DispatcherFacts.

(** C2 as written fails: with both a time grid and age bins (and no ensemble
    member) the call returns the parametric result and reports nothing. *)
Lemma params_to_sfh_both_returns :
  params_to_sfh (fun _ => 0) (fun _ _ => 0) (fun _ _ _ => Raise ValueError)
                empty_params (Some [0; 1]) (Some two_bins)
  = Ok (LookbackTimes [1; 0], A1 [], CmfArray (A1 [])).
Proof.
  unfold params_to_sfh. simpl.
  replace (Rmax 0 1) with 1 by (rewrite Rmax_right; lra).
  repeat f_equal; lra.
Qed.

(** ** Rates per bin *)






(** ** The recent star-formation rate *)

Lemma np_clip_nonpos (x : R) : x <= 0 -> np_clip x 0 1 = 0.
Proof.
  intros H. unfold np_clip. rewrite Rmax_right by exact H.
  apply Rmin_left; lra.
Qed.

Lemma np_clip_one : np_clip 1 0 1 = 1.
Proof. unfold np_clip. rewrite Rmax_left by lra. apply Rmin_left; lra. Qed.

(** A bin that starts at or after the end of the window is not covered. *)
Lemma coverage_none (p lo hi : R) :
  lo < hi -> p <= np_power 10 (lo - 9) ->
  np_clip ((p - np_power 10 (lo - 9))
           / (np_power 10 (hi - 9) - np_power 10 (lo - 9))) 0 1 = 0.
Proof.
  intros Hlh Hp. apply np_clip_nonpos.
  assert (Hd : 0 < np_power 10 (hi - 9) - np_power 10 (lo - 9)).
  { assert (np_power 10 (lo - 9) < np_power 10 (hi - 9))
      by (apply np_power_10_lt; lra). lra. }
  pose proof (Rinv_0_lt_compat _ Hd) as Hinv.
  unfold Rdiv. nra.
Qed.

(** A bin that ends exactly where the window ends is covered fully. *)
Lemma coverage_full (lo hi : R) :
  lo < hi ->
  np_clip ((np_power 10 (hi - 9) - np_power 10 (lo - 9))
           / (np_power 10 (hi - 9) - np_power 10 (lo - 9))) 0 1 = 1.
Proof.
  intros Hlh.
  assert (np_power 10 (lo - 9) < np_power 10 (hi - 9))
    by (apply np_power_10_lt; lra).
  replace ((np_power 10 (hi - 9) - np_power 10 (lo - 9))
           / (np_power 10 (hi - 9) - np_power 10 (lo - 9))) with 1
    by (field; lra).
  apply np_clip_one.
Qed.

Lemma coverage_none_all (p : R) (bins : agebins_t) :
  proper_bins bins ->
  Forall (fun b => p <= np_power 10 (fst b - 9)) bins ->
  map (fun lh => np_clip ((p - fst lh) / (snd lh - fst lh)) 0 1) (edges_gyr bins)
  = map (fun _ => 0) bins.
Proof.
  intros Hproper Hp. unfold edges_gyr. rewrite map_map.
  apply map_ext_in. intros [lo hi] Hin. simpl.
  unfold proper_bins in Hproper. rewrite Forall_forall in Hproper, Hp.
  apply coverage_none; [apply (Hproper _ Hin) | apply (Hp _ Hin)].
Qed.

Lemma sum_zip_zeros {A : Type} (l : list A) (row : list R) :
  sum_list (zip_with Rmult (map (fun _ => 0) l) row) = 0.
Proof.
  revert row; induction l as [| a l IH]; intros [| m row]; simpl;
    try reflexivity.
  rewrite IH. ring.
Qed.

Lemma np_array2d_ok (n : nat) (rows : list (list R)) :
  Forall (fun row => length row = n) rows -> np_array2d rows = Ok rows.
Proof.
  intros H. destruct rows as [| r rs]; [reflexivity |].
  unfold np_array2d.
  inversion H as [| ? ? Hr Hrs]; subst.
  replace (forallb (fun r' => Nat.eqb (length r') (length r)) rs) with true;
    [reflexivity |].
  symmetry. apply forallb_forall. intros r' Hin.
  rewrite Forall_forall in Hrs. rewrite (Hrs _ Hin). apply Nat.eqb_refl.
Qed.

Lemma mapM_total {A B : Type} (f : A -> B) (g : A -> result B) (l : list A) :
  (forall a, In a l -> g a = Ok (f a)) -> mapM g l = Ok (map f l).
Proof.
  induction l as [| a l IH]; intros H; simpl; [reflexivity |].
  rewrite (H a) by now left. rewrite IH by (intros; apply H; now right).
  reflexivity.
Qed.

Section RecentSfr.

Variable transform : R -> npval -> option agebins_t -> result (list R).

(** For an ensemble with at least one member whose masses come one per
    bin, the result is, member by member, the covered mass over the
    window. *)
Lemma nonpar_recent_sfr_members
    (logmass : list R) (ratios : list (list R)) (bins : agebins_t)
    (masses : list (list R)) (p : R) :
  ensemble_masses transform logmass ratios bins masses ->
  masses <> [] ->
  nonpar_recent_sfr transform logmass ratios bins p
  = Ok (NdArray
          (map (fun row =>
                  sum_list
                    (zip_with Rmult
                       (map (fun lh => np_clip ((p - fst lh) / (snd lh - fst lh)) 0 1)
                            (edges_gyr bins))
                       row)
                  / (p * 1e9))
               masses)).
Proof.
  intros [Hcall Hlen] Hne.
  unfold nonpar_recent_sfr. rewrite Hcall, bind_ok.
  rewrite (np_array2d_ok (length bins)) by exact Hlen. rewrite bind_ok.
  destruct masses as [| r rs] eqn:E; [now elim Hne |]. rewrite <- E in *.
  set (ft := map _ (edges_gyr bins)).
  rewrite (mapM_total (fun row => zip_with Rmult ft row)).
  - rewrite bind_ok, map_map. reflexivity.
  - intros row Hin. apply broadcast_same_length.
    rewrite Forall_forall in Hlen. rewrite (Hlen _ Hin).
    unfold ft, edges_gyr. now rewrite !length_map.
Qed.

(** C8: with the window ending exactly at the upper edge of the youngest
    bin, every member's result is the mass of that bin alone over the
    window; the older bins contribute nothing. *)
Theorem nonpar_recent_sfr_youngest_bin
    (logmass : list R) (ratios : list (list R)) (b0 : R * R)
    (older : agebins_t) (masses : list (list R)) :
  proper_bins (b0 :: older) ->
  Forall (fun b => snd b0 <= fst b) older ->
  ensemble_masses transform logmass ratios (b0 :: older) masses ->
  masses <> [] ->
  nonpar_recent_sfr transform logmass ratios (b0 :: older)
                    (np_power 10 (snd b0 - 9))
  = Ok (NdArray (map (fun row => hd 0 row / (np_power 10 (snd b0 - 9) * 1e9))
                     masses)).
Proof.
  intros Hproper Holder Hm Hne.
  rewrite (nonpar_recent_sfr_members _ _ _ masses) by assumption.
  do 2 f_equal. apply map_ext_in. intros row Hin. f_equal.
  inversion Hproper as [| ? ? Hb0 Hrest]; subst.
  destruct b0 as [lo0 hi0]. simpl in *.
  rewrite coverage_full by exact Hb0.
  change (map _ (edges_gyr older))
    with (map (fun lh => np_clip ((np_power 10 (hi0 - 9) - fst lh)
                                  / (snd lh - fst lh)) 0 1) (edges_gyr older)).
  rewrite coverage_none_all; [| exact Hrest |].
  - destruct row as [| m row]; simpl; [reflexivity |].
    rewrite sum_zip_zeros. ring.
  - eapply Forall_impl; [| exact Holder].
    intros b Hb. apply np_power_10_le. lra.
Qed.

(** C10 (as the code has it): a positive window that ends at or before
    the lower edge of every bin gives exactly 0 for every member, for every
    ensemble that has a member or whose bin set has at most one bin; for an
    ensemble without members the result is then the 0-d value 0. *)
Theorem nonpar_recent_sfr_below_bins
    (logmass : list R) (ratios : list (list R)) (bins : agebins_t)
    (masses : list (list R)) (sfr_period : R) :
  proper_bins bins ->
  0 < sfr_period ->
  Forall (fun b => sfr_period <= np_power 10 (fst b - 9)) bins ->
  ensemble_masses transform logmass ratios bins masses ->
  masses <> [] \/ (length bins <= 1)%nat ->
  nonpar_recent_sfr transform logmass ratios bins sfr_period
  = Ok (match masses with
        | [] => Scalar 0
        | _ => NdArray (map (fun _ => 0) masses)
        end).
Proof.
  intros Hproper Hpos Hbelow Hm Hcase.
  destruct masses as [| row rows] eqn:E.
  - destruct Hcase as [Hne | Hbins]; [now elim Hne |].
    destruct Hm as [Hcall _].
    unfold nonpar_recent_sfr. rewrite Hcall, bind_ok.
    simpl np_array2d. rewrite bind_ok.
    destruct bins as [| b0 [| b1 bins]]; simpl in Hbins; try lia;
      simpl; unfold Rdiv; rewrite Rmult_0_l; reflexivity.
  - rewrite <- E in *.
    rewrite (nonpar_recent_sfr_members _ _ _ masses)
      by (try assumption; rewrite E; discriminate).
    rewrite E at 1. rewrite <- E.
    do 2 f_equal. apply map_ext. intros r.
    rewrite coverage_none_all by assumption.
    rewrite sum_zip_zeros. unfold Rdiv. ring.
Qed.

End RecentSfr.

Lemma five_each_masses :
  ensemble_masses five_each [1] [[0]] two_bins [[5; 5]].
Proof. split; [reflexivity | repeat constructor]. Qed.

Lemma two_bins_proper : proper_bins two_bins.
Proof. repeat constructor; simpl; lra. Qed.

Lemma nonpar_recent_sfr_youngest_bin_witness :
  nonpar_recent_sfr five_each [1] [[0]] two_bins (np_power 10 (1 - 9))
  = Ok (NdArray (map (fun row => hd 0 row / (np_power 10 (1 - 9) * 1e9))
                     [[5; 5]])).
Proof.
  apply (nonpar_recent_sfr_youngest_bin five_each [1] [[0]] (0, 1) [(1, 2)]
                                         [[5; 5]]).
  - exact two_bins_proper.
  - constructor; [simpl; lra | constructor].
  - exact five_each_masses.
  - discriminate.
Defined.

Lemma two_bins_above_window :
  Forall (fun b => 1e-10 <= np_power 10 (fst b - 9)) two_bins.
Proof.
  unfold two_bins.
  constructor; [| constructor; [| constructor]]; simpl;
    rewrite np_power_10_minus9;
    [rewrite np_power_10_0 | rewrite np_power_10_1]; lra.
Qed.

Lemma nonpar_recent_sfr_below_bins_witness :
  nonpar_recent_sfr five_each [1] [[0]] two_bins 1e-10
  = Ok (match [[5; 5]] with
        | [] => Scalar 0
        | _ => NdArray (map (fun _ => 0) [[5; 5]])
        end).
Proof.
  apply (nonpar_recent_sfr_below_bins five_each [1] [[0]] two_bins [[5; 5]] 1e-10).
  - exact two_bins_proper.
  - lra.
  - exact two_bins_above_window.
  - exact five_each_masses.
  - left. discriminate.
Defined.

(** C10 as written fails: for an ensemble without members on two bins,
    with the window below both, every premise of the claim holds and the
    call raises [ValueError]: the empty mass array does not broadcast
    against the two coverage fractions. *)
Lemma nonpar_recent_sfr_below_bins_empty :
  proper_bins two_bins
  /\ 0 < 1e-10
  /\ Forall (fun b => 1e-10 <= np_power 10 (fst b - 9)) two_bins
  /\ ensemble_masses five_each [] [] two_bins []
  /\ nonpar_recent_sfr five_each [] [] two_bins 1e-10 = Raise ValueError.
Proof.
  split; [exact two_bins_proper |]. split; [lra |].
  split; [exact two_bins_above_window |].
  split; [split; [reflexivity | constructor] |].
  reflexivity.
Qed.

(** ** Quantiles of an ensemble *)

Lemma chunks_concat (k : nat) (rows : list (list R)) :
  Forall (fun r => length r = k) rows ->
  chunks k (length rows) (concat rows) = rows.
Proof.
  induction 1 as [| r rows Hr _ IH]; simpl; [reflexivity |].
  rewrite firstn_app, skipn_app, Hr, Nat.sub_diag.
  rewrite <- Hr at 1 3. rewrite firstn_all, skipn_all. simpl.
  rewrite app_nil_r, IH. reflexivity.
Qed.

Lemma length_concat_uniform (k : nat) (rows : list (list R)) :
  Forall (fun r => length r = k) rows ->
  length (concat rows) = (k * length rows)%nat.
Proof.
  induction 1 as [| r rows Hr _ IH]; simpl; [lia |].
  rewrite length_app, IH, Hr. lia.
Qed.

Lemma reshape_rows_concat (k : nat) (rows : list (list R)) :
  rows <> [] ->
  Forall (fun r => length r = k) rows ->
  reshape_rows (length rows) (concat rows) = Ok rows.
Proof.
  intros Hne Hk. unfold reshape_rows.
  destruct (length rows) as [| m] eqn:Em.
  { destruct rows; [now elim Hne | discriminate]. }
  rewrite <- Em.
  rewrite (length_concat_uniform k) by exact Hk.
  rewrite Nat.Div0.mod_mul, Nat.eqb_refl.
  rewrite Nat.div_mul by (rewrite Em; discriminate).
  now rewrite chunks_concat.
Qed.

Lemma duplicate_length (row : list R) :
  length (duplicate row) = (2 * length row)%nat.
Proof.
  induction row as [| s row IH]; [reflexivity |].
  change (duplicate (s :: row)) with (s :: s :: duplicate row).
  simpl length. rewrite IH. simpl. lia.
Qed.

Lemma flatten_bins_length (b : agebins_t) :
  length (flatten_bins b) = (2 * length b)%nat.
Proof.
  induction b as [| lh b IH]; [reflexivity |].
  change (flatten_bins (lh :: b)) with (fst lh :: snd lh :: flatten_bins b).
  simpl length. rewrite IH. simpl. lia.
Qed.

Lemma combine_map2 {A B C D : Type} (f : A -> C) (g : B -> D)
    (l : list A) (l' : list B) :
  combine (map f l) (map g l')
  = map (fun ab => (f (fst ab), g (snd ab))) (combine l l').
Proof.
  revert l'; induction l as [| a l IH]; intros [| b l']; simpl;
    try reflexivity.
  now rewrite IH.
Qed.

(** With the documented shapes and at least one member and one bin, the
    per-member curves are built without error: member by member, the
    interpolation of the duplicated rates over the flattened bin edges. *)
Lemma sfh_samples_ok (nbin : nat) (tvec : list R) (bins : list agebins_t)
    (sfrs : list (list R)) :
  bins <> [] -> (0 < nbin)%nat ->
  matching_shapes nbin bins sfrs ->
  sfh_samples tvec bins sfrs = Ok (map (member_curve tvec) (combine bins sfrs)).
Proof.
  intros Hne Hnbin (Hlen & Hb & Hs).
  unfold sfh_samples.
  destruct bins as [| b0 bins'] eqn:E; [now elim Hne |]. rewrite <- E in *.
  rewrite bind_ok.
  unfold duplicate_each. rewrite flat_map_concat_map.
  replace (length bins) with (length (map duplicate sfrs))
    by (now rewrite length_map).
  rewrite (reshape_rows_concat (2 * nbin)).
  - rewrite bind_ok, combine_map2.
    rewrite (mapM_total
               (fun ts => map (interp_point (fst ts) (snd ts) 0 0) tvec)).
    + rewrite bind_ok, map_map. reflexivity.
    + intros [xp fp] Hin. apply in_map_iff in Hin.
      destruct Hin as [[b s] [Heq Hin]]. simpl in Heq.
      injection Heq as <- <-. simpl.
      rewrite Forall_forall in Hb, Hs.
      pose proof (Hb _ (in_combine_l _ _ _ _ Hin)) as Hbl.
      pose proof (Hs _ (in_combine_r _ _ _ _ Hin)) as Hsl.
      unfold np_interp.
      rewrite flatten_bins_length, duplicate_length, Hbl, Hsl, Nat.eqb_refl.
      destruct (flatten_bins b) as [| x0 xs] eqn:Ef; [| reflexivity].
      apply (f_equal (@length R)) in Ef. rewrite flatten_bins_length in Ef.
      simpl in Ef. lia.
  - intros Hnil. apply (f_equal (@length (list R))) in Hnil.
    rewrite length_map, <- Hlen, E in Hnil. discriminate.
  - apply Forall_map. eapply Forall_impl; [| exact Hs].
    intros s Hsl. simpl. now rewrite duplicate_length, Hsl.
Qed.








Lemma percentiles_in_range (q : list R) :
  Forall (fun p => 0 <= p <= 100) q ->
  forallb (fun p => Rleb 0 p && Rleb p 100) q = true.
Proof.
  intros H. apply forallb_forall. intros p Hin.
  rewrite Forall_forall in H. destruct (H p Hin) as [H0 H100].
  now rewrite !Rleb_true.
Qed.


Lemma member_curve_nth (tvec : list R) (member : agebins_t * list R) (j : nat) :
  (j < length tvec)%nat ->
  nth j (member_curve tvec member) 0
  = interp_point (flatten_bins (fst member)) (duplicate (snd member)) 0 0
                 (nth j tvec 0).
Proof.
  intros Hj. unfold member_curve.
  rewrite (nth_indep _ 0
             (interp_point (flatten_bins (fst member))
                           (duplicate (snd member)) 0 0 0))
    by now rewrite length_map.
  apply map_nth.
Qed.


Section QuantileFacts.

Variable quantile :
  list (list R) -> list R -> list R -> result (list (list R)).


End QuantileFacts.

Lemma sample_shapes : matching_shapes 1 sample_bins sample_sfrs.
Proof. repeat split; repeat constructor. Qed.



(** ** Mass-weighted age: closed form against the trapezoid rule *)

Lemma exp_taylor_0 (n : nat) : exp_taylor n 0 = 1.
Proof.
  induction n as [| n IH]; [reflexivity |].
  change (exp_taylor (S n) 0)
    with (exp_taylor n 0 + 0 ^ S n / INR (fact (S n))).
  rewrite IH, (pow_i (S n)) by lia. unfold Rdiv. ring.
Qed.

Lemma exp_taylor_deriv (n : nat) (x : R) :
  derivable_pt_lim (exp_taylor (S n)) x (exp_taylor n x).
Proof.
  induction n as [| n IH].
  - apply (derivable_pt_lim_ext (plus_fct (fct_cte 1) id)).
    { intros y. unfold plus_fct, fct_cte, id. simpl. field. }
    change (exp_taylor 0 x) with 1.
    replace 1 with (0 + 1) at 2 by ring.
    apply derivable_pt_lim_plus;
      [apply derivable_pt_lim_const | apply derivable_pt_lim_id].
  - apply (derivable_pt_lim_ext
             (plus_fct (exp_taylor (S n))
                (mult_real_fct (/ INR (fact (S (S n))))
                               (fun y => y ^ S (S n))))).
    { intros y. unfold plus_fct, mult_real_fct.
      change (exp_taylor (S (S n)) y)
        with (exp_taylor (S n) y + y ^ S (S n) / INR (fact (S (S n)))).
      unfold Rdiv. ring. }
    change (exp_taylor (S n) x)
      with (exp_taylor n x + x ^ S n / INR (fact (S n))).
    apply derivable_pt_lim_plus; [exact IH |].
    replace (x ^ S n / INR (fact (S n)))
      with (/ INR (fact (S (S n))) * (INR (S (S n)) * x ^ pred (S (S n)))).
    + apply derivable_pt_lim_scal, derivable_pt_lim_pow.
    + change (pred (S (S n))) with (S n).
      change (fact (S (S n))) with (S (S n) * fact (S n))%nat.
      rewrite mult_INR. field.
      split; apply not_0_INR; [apply fact_neq_0 | discriminate].
Qed.

Lemma exp_taylor_bound (n : nat) :
  forall x : R,
    (0 <= x -> exp_taylor n x <= exp x)
    /\ (x <= 0 -> if Nat.even n then exp x <= exp_taylor n x
                  else exp_taylor n x <= exp x).
Proof.
  induction n as [| n IH]; intros x.
  - simpl. split; intros Hx.
    + pose proof (exp_ineq1_le x). lra.
    + destruct Hx as [Hx | ->]; [| rewrite exp_0; lra].
      pose proof (exp_increasing x 0 Hx) as H. rewrite exp_0 in H. lra.
  - assert (Hd : forall c : R,
               derivable_pt_lim (fun y => exp y - exp_taylor (S n) y) c
                                (exp c - exp_taylor n c)).
    { intros c. apply derivable_pt_lim_minus;
        [apply derivable_pt_lim_exp | apply exp_taylor_deriv]. }
    assert (H0 : exp 0 - exp_taylor (S n) 0 = 0)
      by (rewrite exp_0, exp_taylor_0; ring).
    split; intros Hx.
    + destruct Hx as [Hx | <-]; [| lra].
      destruct (MVT_cor2 _ _ 0 x Hx (fun c _ => Hd c)) as [c [Hc1 Hc2]].
      destruct (IH c) as [IHpos _]. specialize (IHpos ltac:(lra)).
      rewrite H0 in Hc1. nra.
    + destruct Hx as [Hx | ->].
      2:{ rewrite exp_0, exp_taylor_0. destruct (Nat.even (S n)); lra. }
      destruct (MVT_cor2 _ _ x 0 Hx (fun c _ => Hd c)) as [c [Hc1 Hc2]].
      destruct (IH c) as [_ IHneg]. specialize (IHneg ltac:(lra)).
      rewrite H0 in Hc1.
      rewrite Nat.even_succ, <- Nat.negb_even.
      destruct (Nat.even n); cbn [negb]; nra.
Qed.

Lemma exp_pow_INR (x : R) (n : nat) : exp x ^ n = exp (INR n * x).
Proof.
  induction n as [| n IH].
  - simpl. rewrite Rmult_0_l, exp_0. reflexivity.
  - rewrite S_INR. simpl pow. rewrite IH, <- exp_plus. f_equal. ring.
Qed.

Lemma trapz_cons2 (y0 y1 : R) (ys : list R) (x0 x1 : R) (xs : list R) :
  trapz (y0 :: y1 :: ys) (x0 :: x1 :: xs)
  = (x1 - x0) * (y0 + y1) / 2 + trapz (y1 :: ys) (x1 :: xs).
Proof. reflexivity. Qed.

Lemma np_power_nat (v : R) (j : nat) : np_power v (INR j) = v ^ j.
Proof.
  unfold np_power. destruct (Rlt_dec 0 v) as [Hv | Hv].
  - apply Rpower_pow, Hv.
  - rewrite Int_part_INR, <- INR_IZR_INZ.
    destruct (Req_dec_T (INR j) (INR j)) as [_ | Hne]; [| now elim Hne].
    rewrite <- pow_powerRZ. reflexivity.
Qed.

Section UniformGrid.

Variables h r : R.

Lemma trapz_step (j a m : nat) :
  trapz (map (integrand h r j) (seq a (S (S m)))) (map (grid h) (seq a (S (S m))))
  = h * (integrand h r j a + integrand h r j (S a)) / 2
    + trapz (map (integrand h r j) (seq (S a) (S m))) (map (grid h) (seq (S a) (S m))).
Proof.
  change (seq a (S (S m))) with (a :: S a :: seq (S (S a)) m).
  change (seq (S a) (S m)) with (S a :: seq (S (S a)) m).
  cbn [map]. rewrite trapz_cons2.
  replace (grid h (S a) - grid h a) with h
    by (unfold grid; rewrite S_INR; ring).
  reflexivity.
Qed.

Lemma trapz_closed_0 (m a : nat) :
  2 * (1 - r)
  * trapz (map (integrand h r 0) (seq a (S m))) (map (grid h) (seq a (S m)))
  = h * ((1 + r) * (r ^ a - r ^ (a + m))).
Proof.
  revert a; induction m as [| m IH]; intros a.
  - rewrite Nat.add_0_r. simpl. ring.
  - rewrite trapz_step, Rmult_plus_distr_l, IH.
    replace (a + S m)%nat with (S a + m)%nat by lia.
    unfold integrand. simpl pow. field.
Qed.

Lemma trapz_closed_1 (m a : nat) :
  2 * (1 - r) ^ 2
  * trapz (map (integrand h r 1) (seq a (S m))) (map (grid h) (seq a (S m)))
  = h ^ 2 * (((1 - r ^ 2) * INR a + 2 * r) * r ^ a
             - ((1 - r ^ 2) * INR (a + m) + 2 * r) * r ^ (a + m)).
Proof.
  revert a; induction m as [| m IH]; intros a.
  - rewrite Nat.add_0_r. simpl. ring.
  - rewrite trapz_step, Rmult_plus_distr_l, IH.
    replace (a + S m)%nat with (S a + m)%nat by lia.
    unfold integrand, grid. rewrite !S_INR. simpl pow. field.
Qed.

Lemma trapz_closed_2 (m a : nat) :
  2 * (1 - r) ^ 3
  * trapz (map (integrand h r 2) (seq a (S m))) (map (grid h) (seq a (S m)))
  = h ^ 3 * (((1 - r) ^ 2 * (1 + r) * INR a ^ 2 + 4 * r * (1 - r) * INR a
              + 2 * r * (1 + r)) * r ^ a
             - ((1 - r) ^ 2 * (1 + r) * INR (a + m) ^ 2
                + 4 * r * (1 - r) * INR (a + m) + 2 * r * (1 + r))
               * r ^ (a + m)).
Proof.
  revert a; induction m as [| m IH]; intros a.
  - rewrite Nat.add_0_r. simpl. ring.
  - rewrite trapz_step, Rmult_plus_distr_l, IH.
    replace (a + S m)%nat with (S a + m)%nat by lia.
    unfold integrand, grid. rewrite !S_INR. simpl pow. field.
Qed.

End UniformGrid.

Lemma exp_neg_lower3 (u : R) :
  0 <= u -> 1 - u + u ^ 2 / 2 - u ^ 3 / 6 <= exp (- u).
Proof.
  intros Hu. destruct (exp_taylor_bound 3 (- u)) as [_ H].
  specialize (H ltac:(lra)). cbn [Nat.even] in H.
  replace (exp_taylor 3 (- u)) with (1 - u + u ^ 2 / 2 - u ^ 3 / 6) in H
    by (simpl; field).
  exact H.
Qed.

Lemma exp_neg_upper4 (u : R) :
  0 <= u -> exp (- u) <= 1 - u + u ^ 2 / 2 - u ^ 3 / 6 + u ^ 4 / 24.
Proof.
  intros Hu. destruct (exp_taylor_bound 4 (- u)) as [_ H].
  specialize (H ltac:(lra)). cbn [Nat.even] in H.
  replace (exp_taylor 4 (- u))
    with (1 - u + u ^ 2 / 2 - u ^ 3 / 6 + u ^ 4 / 24) in H
    by (simpl; field).
  exact H.
Qed.

Lemma exp_neg_lower7 (x : R) :
  0 <= x ->
  1 - x + x ^ 2 / 2 - x ^ 3 / 6 + x ^ 4 / 24 - x ^ 5 / 120 + x ^ 6 / 720
  - x ^ 7 / 5040 <= exp (- x).
Proof.
  intros Hx. destruct (exp_taylor_bound 7 (- x)) as [_ H].
  specialize (H ltac:(lra)). cbn [Nat.even] in H.
  replace (exp_taylor 7 (- x))
    with (1 - x + x ^ 2 / 2 - x ^ 3 / 6 + x ^ 4 / 24 - x ^ 5 / 120
          + x ^ 6 / 720 - x ^ 7 / 5040) in H
    by (simpl; field).
  exact H.
Qed.

Lemma exp_pos_lower2 (x : R) :
  0 <= x -> 1 + x + x ^ 2 / 2 <= exp x.
Proof.
  intros Hx. destruct (exp_taylor_bound 2 x) as [H _].
  specialize (H Hx).
  replace (exp_taylor 2 x) with (1 + x + x ^ 2 / 2) in H by (simpl; field).
  exact H.
Qed.

Lemma exp_neg_times (x : R) : exp (- x) * exp x = 1.
Proof. rewrite <- exp_plus. replace (- x + x) with 0 by ring. apply exp_0. Qed.

(** Small steps: the two quantities that measure how far the trapezoid
    rule is from the integral. *)
Lemma small_step_bounds (u r : R) :
  0 < u <= 11 / 1000 ->
  r = exp (- u) ->
  98 / 100 <= r < 1
  /\ u - u ^ 2 / 2 <= 1 - r <= u
  /\ u <= 1 - r ^ 2
  /\ Rabs (1 - r ^ 2 - 2 * u * r) <= u ^ 3 / 3
  /\ Rabs (u * (1 + r) - 2 * (1 - r)) <= u ^ 3 / 5.
Proof.
  intros [Hu0 Hu1] ->.
  pose proof (exp_neg_lower3 u ltac:(lra)) as Hlo.
  pose proof (exp_neg_upper4 u ltac:(lra)) as Hhi.
  set (r := exp (- u)) in *.
  assert (Hu2 : 0 < u ^ 2) by nra.
  assert (Hu3 : 0 < u ^ 3) by nra.
  assert (Hu4 : 0 < u ^ 4) by nra.
  assert (Hu2' : u ^ 2 <= 11 / 1000 * u) by nra.
  assert (Hu3' : u ^ 3 <= 11 / 1000 * u ^ 2) by nra.
  assert (Hu4' : u ^ 4 <= 11 / 1000 * u ^ 3) by nra.
  assert (Hr1 : r <= 1 - u + u ^ 2 / 2) by lra.
  assert (Hr0 : 98 / 100 <= r) by lra.
  repeat split; try lra.
  - nra.
  - apply Rabs_le. split.
    + nra.
    + nra.
  - apply Rabs_le. split; nra.
Qed.

Lemma exp_3_le_27 : exp 3 <= 27.
Proof.
  replace 3 with (INR 3 * 1) by (simpl; lra).
  rewrite <- exp_pow_INR.
  pose proof exp_le_3 as H. pose proof (exp_pos 1) as H0.
  simpl. nra.
Qed.

(** Whole range: the quantities of the closed forms at [X = tage/tau]. *)
Lemma whole_range_bounds (X ex : R) :
  1 / 2 <= X <= 10 ->
  ex = exp (- X) ->
  0 < ex < 1
  /\ X * ex <= 1
  /\ 7 / 100 <= 1 - ex - X * ex
  /\ X ^ 2 / 100 <= X - 1 + ex
  /\ X ^ 2 / 100 <= X - 2 + ex * (X + 2).
Proof.
  intros [HX0 HX1] ->.
  pose proof (exp_pos (- X)) as Hpos.
  pose proof (exp_pos_lower2 X ltac:(lra)) as H2.
  pose proof (exp_neg_times X) as Hprod.
  pose proof (exp_neg_lower3 X ltac:(lra)) as Hl3.
  pose proof (exp_neg_lower7 X ltac:(lra)) as Hl7.
  set (ex := exp (- X)) in *. set (E := exp X) in *.
  assert (HRq : ex * (1 + X + X ^ 2 / 2) <= 1) by nra.
  assert (HR1 : ex < 1) by nra.
  split; [lra |]. split; [nra |]. split; [nra |]. split.
  - destruct (Rle_dec X 2) as [Hle | Hgt]; nra.
  - destruct (Rle_dec X 2) as [Hle | Hgt].
    + nra.
    + destruct (Rle_dec X 3) as [Hle3 | Hgt3]; [| nra].
      assert (HE : E <= 27).
      { apply Rle_trans with (exp 3); [| exact exp_3_le_27].
        destruct Hle3 as [Hlt | ->]; [left; now apply exp_increasing | right; reflexivity]. }
      assert (HR27 : 1 / 27 <= ex) by nra.
      nra.
Qed.

Lemma Rabs_le_both (a b : R) : Rabs a <= b -> - b <= a <= b.
Proof. unfold Rabs. destruct (Rcase_abs a); lra. Qed.

(** A difference [tau * s / d] is within 1% of [tau * e / f] as soon as
    [|s| * f <= e * d / 100]. *)
Lemma within_one_percent (tau s d e f : R) :
  0 < tau -> 0 < d -> 0 < f -> 0 <= e ->
  Rabs s * f <= 1 / 100 * (e * d) ->
  Rabs (tau * s / d) <= 1 / 100 * Rabs (tau * e / f).
Proof.
  intros Htau Hd Hf He H.
  assert (Hid : 0 < / d) by now apply Rinv_0_lt_compat.
  assert (Hif : 0 < / f) by now apply Rinv_0_lt_compat.
  unfold Rdiv. rewrite !Rabs_mult.
  rewrite (Rabs_right tau) by lra.
  rewrite (Rabs_right (/ d)) by lra.
  rewrite (Rabs_right (/ f)) by lra.
  rewrite (Rabs_right e) by lra.
  pose proof (Rabs_pos s) as Hs.
  assert (Hcore : Rabs s * / d <= 1 / 100 * (e * / f)).
  { apply Rmult_le_reg_r with (d * f); [nra |].
    replace (Rabs s * / d * (d * f)) with (Rabs s * f) by (field; lra).
    replace (1 / 100 * (e * / f) * (d * f)) with (1 / 100 * (e * d))
      by (field; lra).
    exact H. }
  nra.
Qed.

(** The key estimate for the exponential law ([power = 0]). *)
Lemma key_estimate_0 (X u r ex : R) :
  1 / 2 <= X <= 10 -> u = X / 999 ->
  r = exp (- u) -> ex = exp (- X) ->
  Rabs (1 - r ^ 2 - 2 * u * r) * (1 - ex)
  <= 1 / 100 * ((X - 1 + ex) * (1 - r ^ 2)).
Proof.
  intros HX Hu Hr HR.
  assert (Hu' : 0 < u <= 11 / 1000) by lra.
  destruct (small_step_bounds u r Hu' Hr) as (Hr0 & Hr1 & Hr2 & Hs & Hk).
  destruct (whole_range_bounds X ex HX HR) as (HR0 & Hb & HDc & HM0 & HP).
  pose proof (Rabs_pos (1 - r ^ 2 - 2 * u * r)) as Hs0.
  set (s := Rabs (1 - r ^ 2 - 2 * u * r)) in *.
  assert (HuX : X = 999 * u) by lra.
  assert (Hu3 : u ^ 3 / 3 <= 1 / 100 * (X ^ 2 / 100 * u)).
  { rewrite HuX. nra. }
  assert (H1 : s * (1 - ex) <= s) by nra.
  assert (H2 : X ^ 2 / 100 * u <= (X - 1 + ex) * (1 - r ^ 2)) by nra.
  lra.
Qed.

(** The key estimate for the delayed law ([power = 1]). *)
Lemma key_estimate_1 (X u r ex : R) :
  1 / 2 <= X <= 10 -> u = X / 999 ->
  r = exp (- u) -> ex = exp (- X) ->
  let s1 := 1 - r ^ 2 - 2 * u * r in
  let k1 := u * (1 + r) - 2 * (1 - r) in
  let Dc := 1 - ex - X * ex in
  let P := X - 2 + ex * (X + 2) in
  let uB := 2 * u * r * Dc - X * ex * s1 in
  13 / 100 * u <= uB
  /\ Rabs (2 * u * r * (1 - ex) * Dc * k1 - (1 - r) * X * ex * P * s1)
     <= 1 / 100 * (P * ((1 - r) * uB)).
Proof.
  intros HX Hu Hr HR s1 k1 Dc P uB.
  assert (Hu' : 0 < u <= 11 / 1000) by lra.
  destruct (small_step_bounds u r Hu' Hr) as (Hr0 & Hr1 & Hr2 & Hs & Hk).
  destruct (whole_range_bounds X ex HX HR) as (HR0 & Hb & HDc & HM0 & HP).
  fold s1 in Hs. fold k1 in Hk. fold Dc in HDc. fold P in HP.
  apply Rabs_le_both in Hs. apply Rabs_le_both in Hk.
  assert (HuX : X = 999 * u) by lra.
  assert (Hu2 : 0 < u ^ 2) by nra.
  assert (Hu3 : 0 < u ^ 3) by nra.
  assert (Hu3' : u ^ 3 <= 11 / 1000 * 11 / 1000 * u) by nra.
  assert (HDc1 : Dc <= 1) by (unfold Dc; nra).
  assert (HXR : 0 <= X * ex) by nra.
  assert (HP0 : 0 < P) by nra.
  assert (HPu : 9980 * u ^ 2 <= P) by (rewrite HuX in HP; nra).
  (* the denominator *)
  assert (HrDc : 98 / 100 * (7 / 100) <= r * Dc) by nra.
  assert (HXRs : - (u ^ 3 / 3) <= X * ex * s1 <= u ^ 3 / 3) by nra.
  assert (HuB : 13 / 100 * u <= uB) by (unfold uB; nra).
  split; [exact HuB |].
  (* the numerator, term by term *)
  assert (Hc0 : 0 <= r * (1 - ex) * Dc <= 1).
  { split; [apply Rmult_le_pos; [apply Rmult_le_pos |]; lra |].
    assert (r * (1 - ex) <= 1) by nra. nra. }
  assert (Hw1 : - (2 * u * (u ^ 3 / 5))
                <= 2 * u * r * (1 - ex) * Dc * k1 <= 2 * u * (u ^ 3 / 5)).
  { set (c0 := r * (1 - ex) * Dc) in *.
    replace (2 * u * r * (1 - ex) * Dc * k1) with (2 * u * (c0 * k1))
      by (unfold c0; ring).
    assert (- (u ^ 3 / 5) <= c0 * k1 <= u ^ 3 / 5) by nra.
    nra. }
  assert (Hc1 : 0 <= (1 - r) * (X * ex) <= u).
  { split; [apply Rmult_le_pos; lra | nra]. }
  assert (Hw2 : - (u * P * (u ^ 3 / 3))
                <= (1 - r) * X * ex * P * s1 <= u * P * (u ^ 3 / 3)).
  { set (c1 := (1 - r) * (X * ex)) in *.
    replace ((1 - r) * X * ex * P * s1) with (P * (c1 * s1))
      by (unfold c1; ring).
    assert (- (u * (u ^ 3 / 3)) <= c1 * s1 <= u * (u ^ 3 / 3)) by nra.
    nra. }
  assert (Hrhs : 1 / 100 * (P * (99 / 100 * u * (13 / 100 * u)))
                 <= 1 / 100 * (P * ((1 - r) * uB))).
  { assert (99 / 100 * u <= 1 - r) by nra.
    assert (99 / 100 * u * (13 / 100 * u) <= (1 - r) * uB) by nra.
    nra. }
  assert (Hfin : 2 * u * (u ^ 3 / 5) + u * P * (u ^ 3 / 3)
                 <= 1 / 100 * (P * (99 / 100 * u * (13 / 100 * u)))).
  { assert (Hu4 : u * u ^ 3 = u ^ 2 * u ^ 2) by ring.
    assert (Hu22 : u ^ 2 <= 121 / 1000000) by nra.
    nra. }
  apply Rabs_le. lra.
Qed.

Lemma linspace0_grid (stop : R) (m : nat) :
  linspace0 stop (S (S m)) = map (grid (stop / INR (S m))) (seq 0 (S (S m))).
Proof.
  unfold linspace0.
  replace (S (S m) - 1)%nat with (S m) by lia.
  reflexivity.
Qed.

Lemma trapz_on_grid (tau tage : R) (j m : nat) :
  tau <> 0 ->
  trapz (map (fun v => np_power v (INR j) * exp (- v / tau))
             (linspace0 tage (S (S m))))
        (linspace0 tage (S (S m)))
  = trapz (map (integrand (tage / INR (S m))
                          (exp (- (tage / INR (S m) / tau))) j)
               (seq 0 (S (S m))))
          (map (grid (tage / INR (S m))) (seq 0 (S (S m)))).
Proof.
  intros Htau. rewrite linspace0_grid, map_map. f_equal.
  apply map_ext. intros k. unfold integrand.
  rewrite np_power_nat, exp_pow_INR. f_equal. f_equal.
  unfold grid. field. split; [apply not_0_INR; discriminate | exact Htau].
Qed.

Lemma INR_999 : INR 999 = 999.
Proof. rewrite INR_IZR_INZ. reflexivity. Qed.

Lemma numerical_0 (tau tage : R) :
  tau <> 0 ->
  parametric_mwa_numerical tau tage 0 1000
  = tage - trapezoid_sum (tage / 999) (exp (- (tage / 999 / tau))) 1
           / trapezoid_sum (tage / 999) (exp (- (tage / 999 / tau))) 0.
Proof.
  intros Htau. unfold parametric_mwa_numerical, trapezoid_sum.
  replace (0 + 1) with (INR 1) by (simpl; lra).
  change 0 with (INR 0).
  change 1000%nat with (S (S 998)).
  rewrite !trapz_on_grid by exact Htau.
  change (S 998) with 999%nat. rewrite INR_999. reflexivity.
Qed.

Lemma numerical_1 (tau tage : R) :
  tau <> 0 ->
  parametric_mwa_numerical tau tage 1 1000
  = tage - trapezoid_sum (tage / 999) (exp (- (tage / 999 / tau))) 2
           / trapezoid_sum (tage / 999) (exp (- (tage / 999 / tau))) 1.
Proof.
  intros Htau. unfold parametric_mwa_numerical, trapezoid_sum.
  replace (1 + 1) with (INR 2) by (simpl; lra).
  change 1 with (INR 1).
  change 1000%nat with (S (S 998)).
  rewrite !trapz_on_grid by exact Htau.
  change (S 998) with 999%nat. rewrite INR_999. reflexivity.
Qed.

(** The sums in closed form, for a ratio [r] other than 1. *)
Lemma trapezoid_sum_0 (h r : R) :
  r < 1 ->
  trapezoid_sum h r 0 = h * ((1 + r) * (1 - r ^ 999)) / (2 * (1 - r)).
Proof.
  intros Hr. apply Rmult_eq_reg_l with (2 * (1 - r)); [| lra].
  unfold trapezoid_sum. rewrite (trapz_closed_0 h r 999 0).
  rewrite Nat.add_0_l. change (r ^ 0) with 1. field. lra.
Qed.

Lemma trapezoid_sum_1 (h r : R) :
  r < 1 ->
  trapezoid_sum h r 1
  = h ^ 2 * (2 * r - ((1 - r ^ 2) * 999 + 2 * r) * r ^ 999)
    / (2 * (1 - r) ^ 2).
Proof.
  intros Hr. apply Rmult_eq_reg_l with (2 * (1 - r) ^ 2); [| nra].
  unfold trapezoid_sum. rewrite (trapz_closed_1 h r 999 0).
  rewrite Nat.add_0_l, INR_999.
  change (INR 0) with 0. change (r ^ 0) with 1. field. lra.
Qed.

Lemma trapezoid_sum_2 (h r : R) :
  r < 1 ->
  trapezoid_sum h r 2
  = h ^ 3 * (2 * r * (1 + r)
             - ((1 - r) ^ 2 * (1 + r) * 999 ^ 2 + 4 * r * (1 - r) * 999
                + 2 * r * (1 + r)) * r ^ 999)
    / (2 * (1 - r) ^ 3).
Proof.
  intros Hr.
  assert (H3 : 0 < (1 - r) ^ 3) by (apply pow_lt; lra).
  apply Rmult_eq_reg_l with (2 * (1 - r) ^ 3); [| lra].
  unfold trapezoid_sum. rewrite (trapz_closed_2 h r 999 0).
  rewrite Nat.add_0_l, INR_999.
  change (INR 0) with 0. change (r ^ 0) with 1. field. lra.
Qed.

Lemma agree_power_0 (gamma : R -> R) (gammainc : R -> R -> R) (tau tage : R) :
  0 < tau -> 1 / 2 <= tage / tau <= 10 ->
  special_functions_at gamma gammainc (tage / tau) ->
  Rabs (parametric_mwa_numerical tau tage 0 1000
        - parametric_mwa gamma gammainc tau tage 0)
  <= 1 / 100 * Rabs (parametric_mwa gamma gammainc tau tage 0).
Proof.
  intros Htau HX (Hg2 & Hg3 & HP1 & HP2 & HP3).
  set (X := tage / tau) in *.
  set (u := X / 999).
  set (r := exp (- u)).
  set (ex := exp (- X)).
  assert (Htage : tage = tau * X) by (unfold X; field; lra).
  assert (Hu : 0 < u <= 11 / 1000) by (unfold u; lra).
  destruct (small_step_bounds u r Hu eq_refl) as (Hr0 & Hr1 & Hr2 & Hs & Hk).
  destruct (whole_range_bounds X ex HX eq_refl) as (He0 & Hb & HDc & HM0 & HP).
  assert (Hpow : r ^ 999 = ex).
  { unfold r, ex. rewrite exp_pow_INR, INR_999. f_equal. unfold u. field. }
  rewrite numerical_0 by lra.
  replace (tage / 999 / tau) with u by (unfold u, X; field; lra).
  replace (tage / 999) with (tau * u) by (unfold u, X; field; lra).
  fold r. rewrite trapezoid_sum_0, trapezoid_sum_1 by lra. rewrite Hpow.
  unfold parametric_mwa. fold X.
  replace (0 + 2) with 2 by ring. replace (0 + 1) with 1 by ring.
  rewrite Hg2, HP1, HP2. fold ex.
  replace (tage
           - (tau * u) ^ 2 * (2 * r - ((1 - r ^ 2) * 999 + 2 * r) * ex)
             / (2 * (1 - r) ^ 2)
             / (tau * u * ((1 + r) * (1 - ex)) / (2 * (1 - r)))
           - (tage - (1 - (1 + X) * ex) * 1 / (1 - ex) * tau))
    with (tau * (1 - r ^ 2 - 2 * u * r) / (1 - r ^ 2))
    by (rewrite Htage; unfold u; field; repeat split; nra).
  replace (tage - (1 - (1 + X) * ex) * 1 / (1 - ex) * tau)
    with (tau * (X - 1 + ex) / (1 - ex))
    by (rewrite Htage; field; lra).
  apply within_one_percent; try lra; [nra |].
  apply (key_estimate_0 X u r ex); auto.
Qed.

Lemma agree_power_1 (gamma : R -> R) (gammainc : R -> R -> R) (tau tage : R) :
  0 < tau -> 1 / 2 <= tage / tau <= 10 ->
  special_functions_at gamma gammainc (tage / tau) ->
  Rabs (parametric_mwa_numerical tau tage 1 1000
        - parametric_mwa gamma gammainc tau tage 1)
  <= 1 / 100 * Rabs (parametric_mwa gamma gammainc tau tage 1).
Proof.
  intros Htau HX (Hg2 & Hg3 & HP1 & HP2 & HP3).
  set (X := tage / tau) in *.
  set (u := X / 999).
  set (r := exp (- u)).
  set (ex := exp (- X)).
  assert (Htage : tage = tau * X) by (unfold X; field; lra).
  assert (Hu : 0 < u <= 11 / 1000) by (unfold u; lra).
  destruct (small_step_bounds u r Hu eq_refl) as (Hr0 & Hr1 & Hr2 & Hs & Hk).
  destruct (whole_range_bounds X ex HX eq_refl) as (He0 & Hb & HDc & HM0 & HP).
  destruct (key_estimate_1 X u r ex HX eq_refl eq_refl eq_refl) as [HuB Hkey].
  cbv zeta in HuB, Hkey.
  assert (Hpow : r ^ 999 = ex).
  { unfold r, ex. rewrite exp_pow_INR, INR_999. f_equal. unfold u. field. }
  rewrite numerical_1 by lra.
  replace (tage / 999 / tau) with u by (unfold u, X; field; lra).
  replace (tage / 999) with (tau * u) by (unfold u, X; field; lra).
  fold r. rewrite trapezoid_sum_1, trapezoid_sum_2 by lra. rewrite Hpow.
  unfold parametric_mwa. fold X.
  replace (1 + 2) with 3 by ring. replace (1 + 1) with 2 by ring.
  rewrite Hg3, HP2, HP3. fold ex.
  set (s1 := 1 - r ^ 2 - 2 * u * r) in *.
  set (Dc := 1 - ex - X * ex) in *.
  set (P := X - 2 + ex * (X + 2)) in *.
  set (uB := 2 * u * r * Dc - X * ex * s1) in *.
  set (W := 2 * u * r * (1 - ex) * Dc * (u * (1 + r) - 2 * (1 - r))
            - (1 - r) * X * ex * P * s1) in *.
  assert (HuB0 : 0 < uB) by lra.
  assert (Hden : 0 < (1 - r) * uB * Dc).
  { apply Rmult_lt_0_compat; [apply Rmult_lt_0_compat |]; lra. }
  replace (tage
           - (tau * u) ^ 3
             * (2 * r * (1 + r)
                - ((1 - r) ^ 2 * (1 + r) * 999 ^ 2 + 4 * r * (1 - r) * 999
                   + 2 * r * (1 + r)) * ex)
             / (2 * (1 - r) ^ 3)
             / ((tau * u) ^ 2 * (2 * r - ((1 - r ^ 2) * 999 + 2 * r) * ex)
                / (2 * (1 - r) ^ 2))
           - (tage
              - (1 - (1 + X + X ^ 2 / 2) * ex) * 2
                / (1 - (1 + X) * ex) * tau))
    with (tau * (- W) / ((1 - r) * uB * Dc)).
  2:{ assert (HB : 2 * r - ((1 - r ^ 2) * 999 + 2 * r) * ex <> 0).
      { assert (u * (2 * r - ((1 - r ^ 2) * 999 + 2 * r) * ex) = uB)
          by (unfold uB, Dc, s1, u; field).
        intros E. rewrite E in H. lra. }
      assert (HD : 1 - (1 + X) * ex <> 0) by (unfold Dc in HDc; lra).
      rewrite Htage. unfold W, uB, P, Dc, s1, u. field.
      repeat split; try lra; try nra. }
  replace (tage
           - (1 - (1 + X + X ^ 2 / 2) * ex) * 2 / (1 - (1 + X) * ex) * tau)
    with (tau * P / Dc)
    by (rewrite Htage; unfold P, Dc; field; unfold Dc in HDc; lra).
  apply within_one_percent; try lra; [nra |].
  rewrite Rabs_Ropp.
  replace (P * ((1 - r) * uB * Dc)) with (P * ((1 - r) * uB) * Dc) by ring.
  rewrite <- Rmult_assoc.
  apply Rmult_le_compat_r; [lra |].
  exact Hkey.
Qed.

(** C6: for [tau > 0], [tage/tau] in [[0.5, 10]] and [power] 0 or 1, with
    Gamma and P taking their values at 1, 2, 3, the closed-form mass-weighted
    age and the trapezoid version on 1000 grid points differ by at most 1% of
    the closed-form value. *)
Theorem parametric_mwa_agrees
    (gamma : R -> R) (gammainc : R -> R -> R) (tau tage power : R) :
  0 < tau -> 1 / 2 <= tage / tau <= 10 ->
  power = 0 \/ power = 1 ->
  special_functions_at gamma gammainc (tage / tau) ->
  Rabs (parametric_mwa_numerical tau tage power 1000
        - parametric_mwa gamma gammainc tau tage power)
  <= 1 / 100 * Rabs (parametric_mwa gamma gammainc tau tage power).
Proof.
  intros Htau HX [-> | ->] Hsf.
  - now apply agree_power_0.
  - now apply agree_power_1.
Qed.

Lemma special_functions_small (x : R) :
  special_functions_at gamma_small gammainc_small x.
Proof.
  unfold special_functions_at, gamma_small, gammainc_small.
  repeat split;
    repeat match goal with
           | |- context [Req_dec_T ?a ?b] => destruct (Req_dec_T a b); try lra
           end.
Qed.

Lemma parametric_mwa_agrees_witness :
  Rabs (parametric_mwa_numerical 4 (137 / 10) 1 1000
        - parametric_mwa gamma_small gammainc_small 4 (137 / 10) 1)
  <= 1 / 100 * Rabs (parametric_mwa gamma_small gammainc_small 4 (137 / 10) 1).
Proof.
  apply (parametric_mwa_agrees gamma_small gammainc_small 4 (137 / 10) 1).
  - lra.
  - lra.
  - right; reflexivity.
  - apply special_functions_small.
Defined.

(** * Further properties *)

(** ** Rates and mass-weighted ages of binned histories *)

Lemma mapM_bind_total {A B C : Type} (f : A -> result B) (g : B -> result C)
    (g' : B -> C) (l : list A) (bs : list B) :
  mapM f l = Ok bs ->
  (forall b, In b bs -> g b = Ok (g' b)) ->
  mapM (fun a => bind (f a) g) l = Ok (map g' bs).
Proof.
  revert bs; induction l as [| a l IH]; intros bs Hf Hg; simpl in *.
  - injection Hf as <-. reflexivity.
  - destruct (f a) as [b | e]; simpl in *; [| discriminate].
    destruct (mapM f l) as [bs' | e]; simpl in *; [| discriminate].
    injection Hf as <-.
    rewrite (Hg b) by now left. simpl.
    rewrite (IH bs' eq_refl) by (intros; apply Hg; now right).
    reflexivity.
Qed.

Lemma zip_with_div_mul (ms dt : list R) :
  length ms = length dt -> Forall (fun w => 0 < w) dt ->
  zip_with Rmult (zip_with Rdiv ms dt) dt = ms.
Proof.
  revert dt; induction ms as [| m ms IH]; intros [| w dt] Hlen Hpos;
    simpl in *; try discriminate; [reflexivity |].
  inversion Hpos; subst. f_equal; [field; lra | apply IH; [lia | assumption]].
Qed.

Section RatesFacts.

Variable transform : R -> npval -> option agebins_t -> result (list R).

Lemma dtsq_times_rate (bins : agebins_t) (row : list R) :
  proper_bins bins -> length row = length bins ->
  zip_with Rmult
    (map (fun lh => (np_power 10 (snd lh) ^ 2 - np_power 10 (fst lh) ^ 2) / 2)
         bins)
    (zip_with Rdiv row (bin_widths bins))
  = zip_with Rmult (bin_midpoints bins) row.
Proof.
  intros Hproper; revert row.
  induction Hproper as [| [lo hi] bins Hlh _ IH]; intros [| m row] Hlen;
    simpl in *; try discriminate; [reflexivity |].
  f_equal; [| apply IH; lia].
  pose proof (np_power_10_lt lo hi Hlh). field. lra.
Qed.

Lemma ratios_to_sfrs_rows
    (logmass : list R) (ratios : list (list R)) (bins : agebins_t)
    (masses : list (list R)) :
  ensemble_masses transform logmass ratios bins masses ->
  mapM (fun ms => ratios_to_sfrs transform (fst ms) (snd ms) (Some bins))
       (combine logmass ratios)
  = Ok (map (fun row => zip_with Rdiv row (bin_widths bins)) masses).
Proof.
  intros [Hcall Hlen]. unfold ratios_to_sfrs.
  apply (mapM_bind_total
           (fun ms => transform (fst ms) (squeeze_1d (snd ms)) (Some bins))
           (fun ms => b <- subscript (Some bins) ;; broadcast Rdiv ms (bin_widths b))
           (fun row => zip_with Rdiv row (bin_widths bins))
           _ _ Hcall).
  intros row Hin. simpl. apply broadcast_same_length.
  rewrite Forall_forall in Hlen. now rewrite (Hlen _ Hin), bin_widths_length.
Qed.

(** The value of [nonpar_mwa], member by member. *)
Lemma nonpar_mwa_rows
    (logmass : list R) (ratios : list (list R)) (bins : agebins_t)
    (masses : list (list R)) :
  proper_bins bins ->
  ensemble_masses transform logmass ratios bins masses ->
  nonpar_mwa transform logmass ratios bins
  = Ok (map (fun rl => sum_list (zip_with Rmult (bin_midpoints bins) (fst rl))
                       / np_power 10 (snd rl) / 1e9)
            (combine masses logmass)).
Proof.
  intros Hproper Hm. pose proof Hm as [_ Hlen].
  unfold nonpar_mwa. rewrite (ratios_to_sfrs_rows _ _ _ _ Hm), bind_ok.
  rewrite (np_array2d_ok (length bins)), bind_ok.
  2:{ apply Forall_map. eapply Forall_impl; [| exact Hlen].
      intros row Hrow. simpl.
      rewrite zip_with_length; now rewrite ?bin_widths_length. }
  set (dtsq := map _ bins).
  rewrite (mapM_total
             (fun sl => sum_list (zip_with Rmult dtsq (fst sl))
                        / np_power 10 (snd sl))).
  - rewrite bind_ok. f_equal.
    rewrite <- (map_id logmass) at 1. rewrite combine_map2, !map_map.
    apply map_ext_in. intros [row logm] Hin. simpl. unfold id.
    rewrite Forall_forall in Hlen.
    unfold dtsq. rewrite dtsq_times_rate; [reflexivity | exact Hproper |].
    apply Hlen. eapply in_combine_l, Hin.
  - intros [sfr logm] Hin. simpl.
    rewrite broadcast_same_length; [reflexivity |].
    apply in_combine_l in Hin. apply in_map_iff in Hin.
    destruct Hin as [row [<- Hin]].
    rewrite Forall_forall in Hlen.
    unfold dtsq. rewrite length_map, zip_with_length;
      now rewrite ?bin_widths_length, (Hlen _ Hin).
Qed.

(** X2: for proper bins and one mass per bin, each member's mass-weighted
    age is the sum of its bin masses times the bin midpoints (in years),
    over [10**logmass], in Gyr. *)
Theorem nonpar_mwa_is_weighted_midpoint
    (logmass : list R) (ratios : list (list R)) (bins : agebins_t)
    (masses : list (list R)) :
  proper_bins bins ->
  ensemble_masses transform logmass ratios bins masses ->
  nonpar_mwa transform logmass ratios bins
  = Ok (map (fun rl => sum_list (zip_with Rmult (bin_midpoints bins) (fst rl))
                       / np_power 10 (snd rl) / 1e9)
            (combine masses logmass)).
Proof.
  intros Hproper Hm. apply nonpar_mwa_rows; assumption.
Qed.

Lemma weighted_sum_bounds (a b : R) (mids row : list R) :
  length row = length mids ->
  Forall (fun m => a <= m <= b) mids ->
  Forall (fun w => 0 <= w) row ->
  a * sum_list row <= sum_list (zip_with Rmult mids row) <= b * sum_list row.
Proof.
  intros Hlen Hm; revert row Hlen.
  induction Hm as [| m mids Hmab _ IH]; intros [| w row] Hlen Hw;
    simpl in *; try discriminate; [lra |].
  inversion Hw; subst.
  specialize (IH row ltac:(lia) ltac:(assumption)). nra.
Qed.

(** X3: if moreover no mass is negative and each member's masses add up to
    its [10**logmass], every mass-weighted age lies between the youngest and
    the oldest edge of the bins (in Gyr). *)
Theorem nonpar_mwa_within_bins
    (logmass : list R) (ratios : list (list R)) (bins : agebins_t)
    (masses : list (list R)) (youngest oldest : R) :
  proper_bins bins ->
  Forall (fun lh => youngest <= fst lh /\ snd lh <= oldest) bins ->
  ensemble_masses transform logmass ratios bins masses ->
  Forall (fun rl => Forall (fun m => 0 <= m) (fst rl)
                    /\ sum_list (fst rl) = np_power 10 (snd rl))
         (combine masses logmass) ->
  exists mwa,
    nonpar_mwa transform logmass ratios bins = Ok mwa
    /\ length mwa = length (combine masses logmass)
    /\ Forall (fun v => np_power 10 (youngest - 9) <= v
                        <= np_power 10 (oldest - 9)) mwa.
Proof.
  intros Hproper Hedges Hm Hcontract. pose proof Hm as [_ Hlen].
  rewrite (nonpar_mwa_rows _ _ _ _ Hproper Hm).
  eexists; split; [reflexivity |]. split; [apply length_map |].
  unfold proper_bins in Hproper.
  apply Forall_map. rewrite Forall_forall in *.
  intros [row logm] Hin. simpl.
  destruct (Hcontract _ Hin) as [Hnn Hsum]. simpl in Hnn, Hsum.
  assert (Hmid : Forall (fun m => np_power 10 youngest <= m <= np_power 10 oldest)
                        (bin_midpoints bins)).
  { unfold bin_midpoints. apply Forall_map, Forall_forall.
    intros [lo hi] Hb. simpl.
    destruct (Hedges _ Hb) as [Hy Ho]. simpl in Hy, Ho.
    pose proof (Hproper _ Hb) as Hlh. simpl in Hlh.
    pose proof (np_power_10_le youngest lo Hy).
    pose proof (np_power_10_le hi oldest Ho).
    pose proof (np_power_10_lt lo hi Hlh). lra. }
  assert (Hrow : length row = length (bin_midpoints bins)).
  { unfold bin_midpoints. rewrite length_map. apply Hlen.
    eapply in_combine_l, Hin. }
  pose proof (weighted_sum_bounds _ _ _ _ Hrow Hmid Hnn) as [Hlo Hhi].
  rewrite Hsum in Hlo, Hhi.
  pose proof (np_power_10_pos logm) as HT.
  rewrite !np_power_10_minus9.
  set (wsum := sum_list (zip_with Rmult (bin_midpoints bins) row)) in *.
  set (total := np_power 10 logm) in *.
  assert (Hq : np_power 10 youngest <= wsum / total <= np_power 10 oldest).
  { split.
    - apply Rmult_le_reg_r with total; [exact HT |].
      replace (wsum / total * total) with wsum by (field; lra). lra.
    - apply Rmult_le_reg_r with total; [exact HT |].
      replace (wsum / total * total) with wsum by (field; lra). lra. }
  unfold Rdiv in *. split; apply Rmult_le_compat_r; lra.
Qed.

End RatesFacts.

Lemma nonpar_mwa_is_weighted_midpoint_witness :
  nonpar_mwa five_each [1] [[0]] two_bins
  = Ok (map (fun rl => sum_list (zip_with Rmult (bin_midpoints two_bins) (fst rl))
                       / np_power 10 (snd rl) / 1e9)
            (combine [[5; 5]] [1])).
Proof.
  apply (nonpar_mwa_is_weighted_midpoint five_each [1] [[0]] two_bins [[5; 5]]).
  - exact two_bins_proper.
  - exact five_each_masses.
Defined.

Lemma nonpar_mwa_within_bins_witness :
  exists mwa,
    nonpar_mwa five_each [1] [[0]] two_bins = Ok mwa
    /\ length mwa = length (combine [[5; 5]] [1])
    /\ Forall (fun v => np_power 10 (0 - 9) <= v <= np_power 10 (2 - 9)) mwa.
Proof.
  apply (nonpar_mwa_within_bins five_each [1] [[0]] two_bins [[5; 5]] 0 2).
  - exact two_bins_proper.
  - unfold two_bins.
    constructor; [simpl; lra |]. constructor; [simpl; lra | constructor].
  - exact five_each_masses.
  - constructor; [| constructor]. simpl. split.
    + constructor; [lra |]. constructor; [lra | constructor].
    + rewrite np_power_10_1. lra.
Defined.

(** ** The recent star-formation rate, window by window *)

Lemma np_clip_unit (x : R) : 0 <= np_clip x 0 1 <= 1.
Proof.
  unfold np_clip, Rmin, Rmax.
  destruct (Rle_dec x 0); destruct (Rle_dec _ 1); lra.
Qed.

Lemma np_clip_inside (x : R) : 0 <= x <= 1 -> np_clip x 0 1 = x.
Proof.
  intros H. unfold np_clip, Rmin, Rmax.
  destruct (Rle_dec x 0); destruct (Rle_dec _ 1); lra.
Qed.

Lemma np_clip_above (x : R) : 1 <= x -> np_clip x 0 1 = 1.
Proof.
  intros H. unfold np_clip, Rmin, Rmax.
  destruct (Rle_dec x 0); destruct (Rle_dec _ 1); lra.
Qed.

(** A bin that ends at or before the end of the window is covered fully. *)
Lemma coverage_all (p lo hi : R) :
  lo < hi -> np_power 10 (hi - 9) <= p ->
  np_clip ((p - np_power 10 (lo - 9))
           / (np_power 10 (hi - 9) - np_power 10 (lo - 9))) 0 1 = 1.
Proof.
  intros Hlh Hp. apply np_clip_above.
  assert (Hd : np_power 10 (lo - 9) < np_power 10 (hi - 9))
    by (apply np_power_10_lt; lra).
  apply Rmult_le_reg_r with (np_power 10 (hi - 9) - np_power 10 (lo - 9));
    [lra |].
  unfold Rdiv. rewrite Rmult_assoc, Rinv_l by lra. lra.
Qed.

Lemma coverage_all_bins (p : R) (bins : agebins_t) :
  proper_bins bins ->
  Forall (fun b => np_power 10 (snd b - 9) <= p) bins ->
  map (fun lh => np_clip ((p - fst lh) / (snd lh - fst lh)) 0 1) (edges_gyr bins)
  = map (fun _ => 1) bins.
Proof.
  intros Hproper Hp. unfold edges_gyr. rewrite map_map.
  apply map_ext_in. intros [lo hi] Hin. simpl.
  unfold proper_bins in Hproper. rewrite Forall_forall in Hproper, Hp.
  apply coverage_all; [apply (Hproper _ Hin) | apply (Hp _ Hin)].
Qed.

Lemma sum_zip_ones {A : Type} (l : list A) (row : list R) :
  length row = length l ->
  sum_list (zip_with Rmult (map (fun _ => 1) l) row) = sum_list row.
Proof.
  revert row; induction l as [| a l IH]; intros [| m row] Hlen; simpl in *;
    try discriminate; [reflexivity |].
  rewrite IH by lia. ring.
Qed.

Lemma covered_mass_bounds (ft row : list R) :
  Forall (fun f => 0 <= f <= 1) ft ->
  Forall (fun m => 0 <= m) row ->
  0 <= sum_list (zip_with Rmult ft row) <= sum_list row.
Proof.
  intros Hft; revert row.
  induction Hft as [| f ft Hf _ IH]; intros row Hrow.
  - destruct row; simpl.
    + lra.
    + inversion Hrow; subst.
      assert (0 <= sum_list row).
      { clear - H2. induction H2; simpl; lra. }
      lra.
  - destruct Hrow as [| m row Hm Hrow]; simpl; [lra |].
    specialize (IH row Hrow). nra.
Qed.

Section WindowFacts.

Variable transform : R -> npval -> option agebins_t -> result (list R).

(** X4: a window that reaches to or beyond the upper edge of every bin
    gives, for every member, all of its mass over the window. *)
Theorem nonpar_recent_sfr_whole_history
    (logmass : list R) (ratios : list (list R)) (bins : agebins_t)
    (masses : list (list R)) (sfr_period : R) :
  proper_bins bins ->
  Forall (fun b => np_power 10 (snd b - 9) <= sfr_period) bins ->
  ensemble_masses transform logmass ratios bins masses ->
  masses <> [] ->
  nonpar_recent_sfr transform logmass ratios bins sfr_period
  = Ok (NdArray (map (fun row => sum_list row / (sfr_period * 1e9)) masses)).
Proof.
  intros Hproper Hall Hm Hne. pose proof Hm as [_ Hlen].
  rewrite (nonpar_recent_sfr_members _ _ _ _ masses) by assumption.
  do 2 f_equal. apply map_ext_in. intros row Hin. f_equal.
  rewrite coverage_all_bins by assumption.
  apply sum_zip_ones. rewrite Forall_forall in Hlen. now apply Hlen.
Qed.

(** X5: whatever the positive window, on proper bins and with no negative
    mass every member's result lies between 0 and all of its mass over the
    window. *)
Theorem nonpar_recent_sfr_bounded
    (logmass : list R) (ratios : list (list R)) (bins : agebins_t)
    (masses : list (list R)) (sfr_period : R) :
  proper_bins bins ->
  0 < sfr_period ->
  ensemble_masses transform logmass ratios bins masses ->
  masses <> [] ->
  Forall (Forall (fun m => 0 <= m)) masses ->
  exists sfr,
    nonpar_recent_sfr transform logmass ratios bins sfr_period
    = Ok (NdArray sfr)
    /\ Forall2 (fun v row => 0 <= v <= sum_list row / (sfr_period * 1e9))
               sfr masses.
Proof.
  intros _ Hp Hm Hne Hnn.
  rewrite (nonpar_recent_sfr_members _ _ _ _ masses) by assumption.
  eexists; split; [reflexivity |]. clear Hm Hne.
  induction Hnn as [| row rows Hrow _ IH]; simpl; constructor.
  - set (ft := map _ (edges_gyr bins)).
    assert (Hft : Forall (fun f => 0 <= f <= 1) ft).
    { unfold ft. apply Forall_map, Forall_forall. intros lh _.
      apply np_clip_unit. }
    pose proof (covered_mass_bounds ft row Hft Hrow) as [H0 H1].
    assert (Hd : 0 < / (sfr_period * 1e9))
      by (apply Rinv_0_lt_compat; lra).
    unfold Rdiv. split; [nra | apply Rmult_le_compat_r; lra].
  - exact IH.
Qed.

(** X6: a window that ends inside the youngest bin takes from it the
    fraction of its width that the window covers, and nothing from the
    older bins. *)
Theorem nonpar_recent_sfr_inside_youngest
    (logmass : list R) (ratios : list (list R)) (b0 : R * R)
    (older : agebins_t) (masses : list (list R)) (sfr_period : R) :
  proper_bins (b0 :: older) ->
  Forall (fun b => snd b0 <= fst b) older ->
  np_power 10 (fst b0 - 9) <= sfr_period <= np_power 10 (snd b0 - 9) ->
  ensemble_masses transform logmass ratios (b0 :: older) masses ->
  masses <> [] ->
  nonpar_recent_sfr transform logmass ratios (b0 :: older) sfr_period
  = Ok (NdArray
          (map (fun row =>
                  (sfr_period - np_power 10 (fst b0 - 9))
                  / (np_power 10 (snd b0 - 9) - np_power 10 (fst b0 - 9))
                  * hd 0 row / (sfr_period * 1e9))
               masses)).
Proof.
  intros Hproper Holder Hp Hm Hne.
  rewrite (nonpar_recent_sfr_members _ _ _ _ masses) by assumption.
  do 2 f_equal. apply map_ext_in. intros row Hin. f_equal.
  inversion Hproper as [| ? ? Hb0 Hrest]; subst.
  destruct b0 as [lo0 hi0]. simpl in *.
  assert (Hd : np_power 10 (lo0 - 9) < np_power 10 (hi0 - 9))
    by (apply np_power_10_lt; lra).
  rewrite np_clip_inside.
  2:{ split.
      - unfold Rdiv. apply Rmult_le_pos; [lra |].
        left. apply Rinv_0_lt_compat. lra.
      - apply Rmult_le_reg_r
          with (np_power 10 (hi0 - 9) - np_power 10 (lo0 - 9)); [lra |].
        unfold Rdiv. rewrite Rmult_assoc, Rinv_l by lra. lra. }
  change (map _ (edges_gyr older))
    with (map (fun lh => np_clip ((sfr_period - fst lh)
                                  / (snd lh - fst lh)) 0 1) (edges_gyr older)).
  rewrite coverage_none_all; [| exact Hrest |].
  - destruct row as [| m row]; simpl; [ring |].
    rewrite sum_zip_zeros. ring.
  - eapply Forall_impl; [| exact Holder].
    intros b Hb.
    apply Rle_trans with (np_power 10 (hi0 - 9)); [lra |].
    apply np_power_10_le. lra.
Qed.

End WindowFacts.

Lemma two_bins_within_gyr :
  Forall (fun b => np_power 10 (snd b - 9) <= 1) two_bins.
Proof.
  unfold two_bins.
  constructor; [| constructor; [| constructor]]; simpl;
    rewrite np_power_10_minus9;
    [rewrite np_power_10_1 | rewrite np_power_10_2]; lra.
Qed.

Lemma nonpar_recent_sfr_whole_history_witness :
  nonpar_recent_sfr five_each [1] [[0]] two_bins 1
  = Ok (NdArray (map (fun row => sum_list row / (1 * 1e9)) [[5; 5]])).
Proof.
  apply (nonpar_recent_sfr_whole_history five_each [1] [[0]] two_bins
                                          [[5; 5]] 1).
  - exact two_bins_proper.
  - exact two_bins_within_gyr.
  - exact five_each_masses.
  - discriminate.
Defined.

Lemma nonpar_recent_sfr_bounded_witness :
  exists sfr,
    nonpar_recent_sfr five_each [1] [[0]] two_bins 1 = Ok (NdArray sfr)
    /\ Forall2 (fun v row => 0 <= v <= sum_list row / (1 * 1e9))
               sfr [[5; 5]].
Proof.
  apply (nonpar_recent_sfr_bounded five_each [1] [[0]] two_bins [[5; 5]] 1).
  - exact two_bins_proper.
  - lra.
  - exact five_each_masses.
  - discriminate.
  - constructor; [| constructor].
    constructor; [lra |]. constructor; [lra | constructor].
Defined.

Lemma nonpar_recent_sfr_inside_youngest_witness :
  nonpar_recent_sfr five_each [1] [[0]] ((0, 1) :: [(1, 2)])
                    (np_power 10 (1 - 9))
  = Ok (NdArray
          (map (fun row =>
                  (np_power 10 (1 - 9) - np_power 10 (fst (0, 1) - 9))
                  / (np_power 10 (snd (0, 1) - 9)
                     - np_power 10 (fst (0, 1) - 9))
                  * hd 0 row / (np_power 10 (1 - 9) * 1e9))
               [[5; 5]])).
Proof.
  apply (nonpar_recent_sfr_inside_youngest five_each [1] [[0]] (0, 1)
                                            [(1, 2)] [[5; 5]]).
  - exact two_bins_proper.
  - constructor; [simpl; lra | constructor].
  - simpl. split; [apply np_power_10_le; lra | lra].
  - exact five_each_masses.
  - discriminate.
Defined.

(** ** Ensembles without members *)

Section EmptyEnsemble.

Variable transform : R -> npval -> option agebins_t -> result (list R).

(** X25: for an ensemble without members [nonpar_mwa] returns an empty
    array, while [nonpar_recent_sfr] raises [ValueError] as soon as there
    are two bins or more: the empty mass array does not broadcast against
    the coverage fractions. *)
Theorem nonpar_empty_ensemble
    (logmass : list R) (ratios : list (list R)) (bins : agebins_t)
    (sfr_period : R) :
  combine logmass ratios = [] -> (2 <= length bins)%nat ->
  nonpar_mwa transform logmass ratios bins = Ok []
  /\ nonpar_recent_sfr transform logmass ratios bins sfr_period
     = Raise ValueError.
Proof.
  intros Hc Hn. split.
  - unfold nonpar_mwa. rewrite Hc. reflexivity.
  - unfold nonpar_recent_sfr. rewrite Hc. simpl mapM. rewrite bind_ok.
    simpl np_array2d. rewrite bind_ok.
    destruct bins as [| b0 [| b1 bins]]; simpl in Hn; try lia.
    reflexivity.
Qed.

End EmptyEnsemble.

Lemma nonpar_empty_ensemble_witness :
  nonpar_mwa five_each [] [] two_bins = Ok []
  /\ nonpar_recent_sfr five_each [] [] two_bins 1 = Raise ValueError.
Proof.
  apply (nonpar_empty_ensemble five_each [] [] two_bins 1).
  - reflexivity.
  - simpl. lia.
Defined.

(** ** Cumulative mass fractions, entry by entry *)

Lemma cumsum_from_snoc (a x : R) (l : list R) :
  cumsum_from a (l ++ [x]) = cumsum_from a l ++ [a + sum_list l + x].
Proof.
  revert a; induction l as [| y l IH]; intros a; simpl.
  - f_equal. ring.
  - rewrite IH. do 3 f_equal. ring.
Qed.

Lemma rev_running_totals (ms : list R) :
  rev (0 :: cumsum (rev ms))
  = map (fun i => sum_list (skipn i ms)) (seq 0 (S (length ms))).
Proof.
  induction ms as [| x ms IH]; [reflexivity |].
  change (rev (x :: ms)) with (rev ms ++ [x]).
  unfold cumsum in *. rewrite cumsum_from_snoc.
  change (0 :: (cumsum_from 0 (rev ms) ++ [0 + sum_list (rev ms) + x]))
    with ((0 :: cumsum_from 0 (rev ms)) ++ [0 + sum_list (rev ms) + x]).
  rewrite rev_app_distr, IH. simpl rev. simpl app.
  change (length (x :: ms)) with (S (length ms)).
  change (seq 0 (S (S (length ms)))) with (0%nat :: seq 1 (S (length ms))).
  rewrite <- (seq_shift (S (length ms)) 0), map_cons, map_map.
  f_equal. rewrite sum_list_rev. simpl. ring.
Qed.

(** One member of [sfh_to_cmf], entry by entry: the mass in the bins from
    that edge on, over the whole mass. *)
Lemma cmf_row_fractions (dt sfr : list R) :
  length sfr = length dt -> dt <> [] ->
  cmf_row dt sfr
  = Ok (map (mass_fraction_from (zip_with Rmult sfr dt))
            (seq 0 (S (length dt)))).
Proof.
  intros Hlen Hne. unfold cmf_row.
  rewrite broadcast_same_length by exact Hlen. rewrite bind_ok.
  set (ms := zip_with Rmult sfr dt).
  assert (Hms : length ms = length dt)
    by (unfold ms; rewrite zip_with_length; [exact Hlen | exact Hlen]).
  assert (Hrev : rev ms <> []).
  { intros E. apply (f_equal (@length R)) in E.
    rewrite length_rev, Hms in E. destruct dt; [now elim Hne | discriminate]. }
  assert (Hcs : cumsum (rev ms) <> []).
  { intros E. apply (f_equal (@length R)) in E. unfold cumsum in E.
    rewrite cumsum_from_length in E. simpl in E.
    destruct (rev ms); [now elim Hrev | discriminate]. }
  rewrite (np_last_ok _ 0 Hcs), bind_ok.
  assert (HT : last (cumsum (rev ms)) 0 = sum_list ms).
  { unfold cumsum. rewrite cumsum_from_last by exact Hrev.
    rewrite sum_list_rev. ring. }
  rewrite HT. f_equal.
  replace (0 :: map (fun c => c / sum_list ms) (cumsum (rev ms)))
    with (map (fun c => c / sum_list ms) (0 :: cumsum (rev ms)))
    by (simpl; f_equal; unfold Rdiv; ring).
  rewrite <- map_rev, rev_running_totals, map_map, Hms. reflexivity.
Qed.

Lemma last_map_pair {A B : Type} (f : A -> B) (l : list A) (d : A) :
  last (map f l) (f d) = f (last l d).
Proof.
  induction l as [| a l IH]; [reflexivity |].
  destruct l as [| a' l]; [reflexivity |].
  change (last (map f (a :: a' :: l)) (f d)) with (last (map f (a' :: l)) (f d)).
  rewrite IH. reflexivity.
Qed.

(** The age grid [sfh_to_cmf] builds for the bins [b0 :: rest]. *)
Lemma age_grid_value (b0 : R * R) (rest : agebins_t) :
  map fst (edges_gyr (b0 :: rest))
  ++ [snd (last (edges_gyr rest)
                (np_power 10 (fst b0 - 9), np_power 10 (snd b0 - 9)))]
  = map (fun lh => np_power 10 (fst lh - 9)) (b0 :: rest)
    ++ [np_power 10 (snd (last rest b0) - 9)].
Proof.
  unfold edges_gyr. rewrite map_map. f_equal. f_equal.
  rewrite (last_map_pair
             (fun lh => (np_power 10 (fst lh - 9), np_power 10 (snd lh - 9)))
             rest b0).
  reflexivity.
Qed.

Lemma sfh_to_cmf_value (b0 : R * R) (rest : agebins_t) (sfrs : list (list R)) :
  Forall (fun row => length row = length (b0 :: rest)) sfrs ->
  sfh_to_cmf (A2 sfrs) (Some (b0 :: rest))
  = Ok (map (fun lh => np_power 10 (fst lh - 9)) (b0 :: rest)
        ++ [np_power 10 (snd (last rest b0) - 9)],
        squeeze_rows
          (map (fun row =>
                  map (mass_fraction_from
                         (zip_with Rmult row (bin_widths (b0 :: rest))))
                      (seq 0 (S (length (b0 :: rest)))))
               sfrs)).
Proof.
  intros Hlen. unfold sfh_to_cmf. simpl atleast_2d. simpl subscript.
  rewrite bind_ok.
  rewrite (mapM_total
             (fun row =>
                map (mass_fraction_from
                       (zip_with Rmult row (bin_widths (b0 :: rest))))
                    (seq 0 (S (length (b0 :: rest)))))).
  - rewrite bind_ok. change (edges_gyr (b0 :: rest))
      with ((np_power 10 (fst b0 - 9), np_power 10 (snd b0 - 9))
            :: edges_gyr rest) at 1.
    cbv beta iota. rewrite bind_ok.
    rewrite age_grid_value. reflexivity.
  - intros row Hin. rewrite Forall_forall in Hlen.
    rewrite cmf_row_fractions.
    + now rewrite bin_widths_length.
    + now rewrite bin_widths_length, (Hlen _ Hin).
    + discriminate.
Qed.

(** X7: each returned value is the share of the member's mass that lies in
    the bins from that age edge on: all of it at the first edge, none at the
    last. *)
Theorem sfh_to_cmf_is_mass_fraction (sfrs : list (list R)) (bins : agebins_t) :
  bins <> [] ->
  Forall (fun row => length row = length bins
                     /\ sum_list (zip_with Rmult row (bin_widths bins)) <> 0)
         sfrs ->
  exists ages cmfs,
    sfh_to_cmf (A2 sfrs) (Some bins) = Ok (ages, cmfs)
    /\ rows_of cmfs
       = map (fun row =>
                map (mass_fraction_from (zip_with Rmult row (bin_widths bins)))
                    (seq 0 (S (length bins))))
             sfrs.
Proof.
  intros Hne Hrows. destruct bins as [| b0 rest]; [now elim Hne |].
  rewrite sfh_to_cmf_value.
  - eexists; eexists; split; [reflexivity |]. apply rows_of_squeeze_rows.
  - eapply Forall_impl; [| exact Hrows]. intros row [H _]. exact H.
Qed.

Lemma sum_list_scale (c : R) (l : list R) :
  sum_list (map (Rmult c) l) = c * sum_list l.
Proof. induction l as [| x l IH]; simpl; [ring | rewrite IH; ring]. Qed.

Lemma zip_with_scale_l (c : R) (xs ys : list R) :
  zip_with Rmult (map (Rmult c) xs) ys = map (Rmult c) (zip_with Rmult xs ys).
Proof.
  revert ys; induction xs as [| x xs IH]; intros [| y ys]; simpl;
    try reflexivity.
  rewrite IH. f_equal. ring.
Qed.

Lemma skipn_map_scale (c : R) (i : nat) (l : list R) :
  skipn i (map (Rmult c) l) = map (Rmult c) (skipn i l).
Proof.
  revert l; induction i as [| i IH]; intros [| x l]; simpl; try reflexivity.
  apply IH.
Qed.

(** X8: the result does not depend on the overall normalisation of the
    rates: multiplying every rate by a non-zero factor changes nothing. *)
Theorem sfh_to_cmf_scale_invariant
    (c : R) (sfrs : list (list R)) (bins : agebins_t) :
  c <> 0 -> bins <> [] ->
  Forall (fun row => length row = length bins
                     /\ sum_list (zip_with Rmult row (bin_widths bins)) <> 0)
         sfrs ->
  sfh_to_cmf (A2 (map (map (Rmult c)) sfrs)) (Some bins)
  = sfh_to_cmf (A2 sfrs) (Some bins).
Proof.
  intros Hc Hne Hrows. destruct bins as [| b0 rest]; [now elim Hne |].
  rewrite !sfh_to_cmf_value.
  - do 3 f_equal. rewrite map_map. apply map_ext_in. intros row Hin.
    rewrite Forall_forall in Hrows. destruct (Hrows _ Hin) as [_ HT].
    apply map_ext. intros i. unfold mass_fraction_from.
    rewrite zip_with_scale_l, skipn_map_scale, !sum_list_scale.
    field. split; assumption.
  - eapply Forall_impl; [| exact Hrows]. intros row [H _]. exact H.
  - apply Forall_map. eapply Forall_impl; [| exact Hrows].
    intros row [H _]. simpl. now rewrite length_map.
Qed.

Lemma age_grid_increasing (b0 : R * R) (rest : agebins_t) :
  ordered_bins (b0 :: rest) ->
  strictly_increasing
    (map (fun lh => np_power 10 (fst lh - 9)) (b0 :: rest)
     ++ [np_power 10 (snd (last rest b0) - 9)]).
Proof.
  revert b0; induction rest as [| b1 rest IH]; intros b0 Hord.
  - simpl in *. split; [| exact I]. apply np_power_10_lt. lra.
  - destruct Hord as (H0 & Hnext & Hrest).
    rewrite <- (last_cons_default rest b1 b0).
    specialize (IH b1 Hrest).
    change (map (fun lh => np_power 10 (fst lh - 9)) (b0 :: b1 :: rest)
            ++ [np_power 10 (snd (last rest b1) - 9)])
      with (np_power 10 (fst b0 - 9)
            :: (map (fun lh => np_power 10 (fst lh - 9)) (b1 :: rest)
                ++ [np_power 10 (snd (last rest b1) - 9)])).
    change (map (fun lh => np_power 10 (fst lh - 9)) (b1 :: rest)
            ++ [np_power 10 (snd (last rest b1) - 9)])
      with (np_power 10 (fst b1 - 9)
            :: (map (fun lh => np_power 10 (fst lh - 9)) rest
                ++ [np_power 10 (snd (last rest b1) - 9)])) in IH |- *.
    split; [| exact IH].
    apply np_power_10_lt. lra.
Qed.

(** X9: whenever [sfh_to_cmf] returns, its age grid is the lower edges of
    the bins followed by the upper edge of the last bin, in Gyr; for bins in
    order (each a proper interval starting no earlier than the previous one
    ends) the grid is strictly increasing. *)
Theorem sfh_to_cmf_age_grid
    (sfrs : ndarray) (bins : agebins_t) (ages : list R) (cmfs : ndarray) :
  sfh_to_cmf sfrs (Some bins) = Ok (ages, cmfs) ->
  ages = map (fun lh => np_power 10 (fst lh - 9)) bins
         ++ [np_power 10 (snd (last bins (0, 0)) - 9)]
  /\ length ages = S (length bins)
  /\ (ordered_bins bins -> strictly_increasing ages).
Proof.
  unfold sfh_to_cmf. simpl subscript. rewrite bind_ok.
  destruct (mapM (cmf_row (bin_widths bins)) (atleast_2d sfrs)) as [cs | e];
    [| discriminate].
  rewrite bind_ok.
  destruct bins as [| b0 rest]; [discriminate |].
  change (edges_gyr (b0 :: rest))
    with ((np_power 10 (fst b0 - 9), np_power 10 (snd b0 - 9))
          :: edges_gyr rest) at 1.
  cbv beta iota. rewrite bind_ok, age_grid_value.
  intros H. injection H as <- _.
  rewrite <- (last_cons_default rest b0 (0, 0)).
  split; [reflexivity |]. split.
  - simpl length. rewrite length_app, length_map. simpl. lia.
  - apply age_grid_increasing.
Qed.

(** X10: without bins there is no result: [None] is a [TypeError], and an
    empty bin array ends in an exception whatever the rates are. *)
Theorem sfh_to_cmf_needs_bins (sfrs : ndarray) :
  sfh_to_cmf sfrs None = Raise TypeError
  /\ raises (sfh_to_cmf sfrs (Some [])).
Proof.
  split; [reflexivity |].
  unfold sfh_to_cmf. simpl subscript. rewrite bind_ok.
  change (bin_widths []) with (@nil R).
  destruct (atleast_2d sfrs) as [| row rows].
  - exists IndexError. reflexivity.
  - simpl mapM.
    assert (Hrow : raises (cmf_row [] row)).
    { unfold cmf_row. destruct row as [| x [| y row]].
      - exists IndexError. reflexivity.
      - exists IndexError. reflexivity.
      - exists ValueError. reflexivity. }
    destruct Hrow as [e He]. rewrite He. exists e. reflexivity.
Qed.

Lemma two_bins_masses_nonzero :
  Forall (fun row => length row = length two_bins
                     /\ sum_list (zip_with Rmult row (bin_widths two_bins)) <> 0)
         [[1; 1]].
Proof.
  constructor; [| constructor]. split; [reflexivity |].
  rewrite two_bins_widths. simpl. lra.
Qed.

Lemma sfh_to_cmf_is_mass_fraction_witness :
  exists ages cmfs,
    sfh_to_cmf (A2 [[1; 1]]) (Some two_bins) = Ok (ages, cmfs)
    /\ rows_of cmfs
       = map (fun row =>
                map (mass_fraction_from
                       (zip_with Rmult row (bin_widths two_bins)))
                    (seq 0 (S (length two_bins))))
             [[1; 1]].
Proof.
  apply (sfh_to_cmf_is_mass_fraction [[1; 1]] two_bins).
  - discriminate.
  - exact two_bins_masses_nonzero.
Defined.

Lemma sfh_to_cmf_scale_invariant_witness :
  sfh_to_cmf (A2 (map (map (Rmult 2)) [[1; 1]])) (Some two_bins)
  = sfh_to_cmf (A2 [[1; 1]]) (Some two_bins).
Proof.
  apply (sfh_to_cmf_scale_invariant 2 [[1; 1]] two_bins).
  - lra.
  - discriminate.
  - exact two_bins_masses_nonzero.
Defined.

Lemma sfh_to_cmf_age_grid_witness :
  map (fun lh => np_power 10 (fst lh - 9)) ((0, 1) :: [(1, 2)])
  ++ [np_power 10 (snd (last [(1, 2)] (0, 1)) - 9)]
  = map (fun lh => np_power 10 (fst lh - 9)) two_bins
    ++ [np_power 10 (snd (last two_bins (0, 0)) - 9)]
  /\ length (map (fun lh => np_power 10 (fst lh - 9)) ((0, 1) :: [(1, 2)])
             ++ [np_power 10 (snd (last [(1, 2)] (0, 1)) - 9)])
     = S (length two_bins)
  /\ (ordered_bins two_bins ->
      strictly_increasing
        (map (fun lh => np_power 10 (fst lh - 9)) ((0, 1) :: [(1, 2)])
         ++ [np_power 10 (snd (last [(1, 2)] (0, 1)) - 9)])).
Proof.
  apply (sfh_to_cmf_age_grid (A2 [[1; 1]]) two_bins _ _
           (sfh_to_cmf_value (0, 1) [(1, 2)] [[1; 1]]
              (Forall_cons [1; 1] (eq_refl : length [1; 1] = length two_bins)
                           (Forall_nil _)))).
Defined.

(** ** The dispatcher, path by path *)

Section DispatchFacts.

Variable gamma : R -> R.
Variable gammainc : R -> R -> R.
Variable transform : R -> npval -> option agebins_t -> result (list R).

(** X11: with a time grid the call returns for an ensemble without members
    only, and then with empty arrays beside the lookback times; any member
    makes it raise. *)
Theorem params_to_sfh_parametric_only_empty
    (params : params_t) (time : list R) (agebins : option agebins_t)
    (res : lookback_t * ndarray * cmfs_t) :
  params_to_sfh gamma gammainc transform params (Some time) agebins = Ok res
  <-> exists taus tages masses tmax,
        p_tau params = Some taus /\ p_tage params = Some tages
        /\ p_mass params = Some masses
        /\ combine taus (combine tages masses) = []
        /\ np_max time = Ok tmax
        /\ res = (LookbackTimes (map (fun t => tmax - t) time),
                  A1 [], CmfArray (A1 [])).
Proof.
  unfold params_to_sfh.
  destruct (p_tau params) as [taus |];
    [| split; [discriminate | intros (? & ? & ? & ? & H & _); discriminate]].
  destruct (p_tage params) as [tages |];
    [| split; [discriminate | intros (? & ? & ? & ? & _ & H & _); discriminate]].
  destruct (p_mass params) as [masses |];
    [| split; [discriminate
              | intros (? & ? & ? & ? & _ & _ & H & _); discriminate]].
  simpl getitem. rewrite !bind_ok.
  destruct (combine taus (combine tages masses)) as [| m l] eqn:Hc.
  - simpl mapM. rewrite bind_ok.
    destruct (np_max time) as [tmax | e].
    + rewrite bind_ok. simpl. split.
      * intros H. injection H as <-.
        exists taus, tages, masses, tmax. repeat split; assumption.
      * intros (t1 & t2 & t3 & tm & H1 & H2 & H3 & _ & Hm & ->).
        injection Hm as <-. reflexivity.
    + split; [discriminate |].
      intros (? & ? & ? & ? & _ & _ & _ & _ & H & _). discriminate.
  - split.
    + intros H.
      destruct (mapM_raises_first (parametric_member gamma gammainc time) m l
                  (parametric_member_raises gamma gammainc time m)) as [e He].
      rewrite He in H. discriminate.
    + intros (t1 & t2 & t3 & tm & H1 & H2 & H3 & Hnil & _).
      injection H1 as <-. injection H2 as <-. injection H3 as <-.
      rewrite Hc in Hnil. discriminate.
Qed.

(** X12: a key the chosen path needs and the dictionary lacks is a
    [KeyError]: [tau], [tage] or [mass] with a time grid, [logmass] or
    [logsfr_ratios] without one. *)
Theorem params_to_sfh_missing_key
    (params : params_t) (time : option (list R)) (agebins : option agebins_t) :
  match time with
  | Some _ => p_tau params = None \/ p_tage params = None
              \/ p_mass params = None
  | None => p_logmass params = None \/ p_logsfr_ratios params = None
  end ->
  params_to_sfh gamma gammainc transform params time agebins = Raise KeyError.
Proof.
  unfold params_to_sfh. destruct time as [time |].
  - destruct (p_tau params); [| reflexivity].
    destruct (p_tage params); [| reflexivity].
    destruct (p_mass params); [| reflexivity].
    intros [H | [H | H]]; discriminate.
  - destruct (p_logmass params); [| reflexivity].
    destruct (p_logsfr_ratios params); [| reflexivity].
    intros [H | H]; discriminate.
Qed.

Lemma cmf_row_no_rates (dt : list R) : raises (cmf_row dt []).
Proof.
  unfold cmf_row, broadcast.
  destruct dt as [| w [| w' dt]]; simpl.
  - exists IndexError. reflexivity.
  - exists IndexError. reflexivity.
  - exists ValueError. reflexivity.
Qed.

(** X13: without a time grid an ensemble without members is refused: the
    empty array of rates has no last running sum to normalise by (or does
    not fit the bins), whatever the bins are. *)
Theorem params_to_sfh_binned_empty_raises
    (params : params_t) (agebins : option agebins_t)
    (logmass : list R) (ratios : list (list R)) :
  p_logmass params = Some logmass -> p_logsfr_ratios params = Some ratios ->
  combine logmass ratios = [] ->
  raises (params_to_sfh gamma gammainc transform params None agebins).
Proof.
  intros Hl Hr Hc. unfold params_to_sfh. rewrite Hl, Hr. simpl getitem.
  rewrite !bind_ok, Hc. simpl mapM. rewrite bind_ok. simpl np_array_rows.
  rewrite bind_ok. apply bind_raises.
  unfold sfh_to_cmf. simpl atleast_2d.
  destruct agebins as [b |]; [| exists TypeError; reflexivity].
  simpl subscript. rewrite bind_ok.
  apply bind_raises, mapM_raises_first, cmf_row_no_rates.
Qed.

(** X14: without a time grid, on proper bins and for a mass transform that
    returns one mass per bin for every member, the call returns the bin
    edges in Gyr, the rates (mass over bin width, one row per member), and
    as its third component the whole pair of [sfh_to_cmf]: the age grid and,
    for every member, the fraction of its mass formed in the bins from each
    age edge on. *)
Theorem params_to_sfh_binned
    (params : params_t) (bins : agebins_t)
    (logmass : list R) (ratios : list (list R)) (masses : list (list R)) :
  p_logmass params = Some logmass -> p_logsfr_ratios params = Some ratios ->
  proper_bins bins -> bins <> [] ->
  ensemble_masses transform logmass ratios bins masses ->
  masses <> [] ->
  Forall (fun row => sum_list row <> 0) masses ->
  exists cmfs,
    params_to_sfh gamma gammainc transform params None (Some bins)
    = Ok (LookbackBins (edges_gyr bins),
          A2 (map (fun row => zip_with Rdiv row (bin_widths bins)) masses),
          CmfPair (map (fun lh => np_power 10 (fst lh - 9)) bins
                   ++ [np_power 10 (snd (last bins (0, 0)) - 9)])
                  cmfs)
    /\ rows_of cmfs
       = map (fun row => map (mass_fraction_from row)
                             (seq 0 (S (length bins))))
             masses.
Proof.
  intros Hl Hr Hproper Hne Hm Hmne Htot.
  pose proof (ratios_to_sfrs_rows transform _ _ _ _ Hm) as Hrows.
  destruct Hm as [_ Hlen].
  destruct bins as [| b0 rest]; [now elim Hne |].
  assert (Hshape : Forall (fun row => length row = length (b0 :: rest))
                     (map (fun row => zip_with Rdiv row (bin_widths (b0 :: rest)))
                          masses)).
  { apply Forall_map. eapply Forall_impl; [| exact Hlen].
    intros row H. cbv beta. rewrite zip_with_length; [exact H |].
    now rewrite bin_widths_length. }
  exists (squeeze_rows
            (map (fun row =>
                    map (mass_fraction_from
                           (zip_with Rmult row (bin_widths (b0 :: rest))))
                        (seq 0 (S (length (b0 :: rest)))))
                 (map (fun row => zip_with Rdiv row (bin_widths (b0 :: rest)))
                      masses))).
  split.
  - unfold params_to_sfh. rewrite Hl, Hr. simpl getitem. rewrite !bind_ok.
    unfold agebins_t in *. rewrite Hrows, bind_ok.
    unfold np_array_rows.
    destruct masses as [| row0 masses]; [now elim Hmne |].
    rewrite (np_array2d_ok (length (b0 :: rest))) by exact Hshape.
    rewrite bind_ok. cbn [map]. rewrite bind_ok.
    rewrite sfh_to_cmf_value by exact Hshape.
    rewrite bind_ok. simpl subscript. rewrite bind_ok.
    rewrite <- (last_cons_default rest b0 (0, 0)).
    reflexivity.
  - rewrite rows_of_squeeze_rows, map_map.
    apply map_ext_in. intros row Hin. rewrite Forall_forall in Hlen.
    rewrite zip_with_div_mul; [reflexivity | |].
    + now rewrite (Hlen _ Hin), bin_widths_length.
    + now apply bin_widths_pos.
Qed.

End DispatchFacts.

Lemma params_to_sfh_missing_key_witness :
  params_to_sfh gamma_small gammainc_small five_each no_keys None
                (Some two_bins)
  = Raise KeyError.
Proof.
  apply (params_to_sfh_missing_key gamma_small gammainc_small five_each
                                   no_keys None (Some two_bins)).
  left. reflexivity.
Defined.

Lemma params_to_sfh_binned_empty_raises_witness :
  raises (params_to_sfh gamma_small gammainc_small five_each empty_params
                        None (Some two_bins)).
Proof.
  apply (params_to_sfh_binned_empty_raises gamma_small gammainc_small five_each
           empty_params (Some two_bins) [] []); reflexivity.
Defined.

Lemma params_to_sfh_binned_witness :
  exists cmfs,
    params_to_sfh gamma_small gammainc_small five_each one_member None
                  (Some two_bins)
    = Ok (LookbackBins (edges_gyr two_bins),
          A2 (map (fun row => zip_with Rdiv row (bin_widths two_bins))
                  [[5; 5]]),
          CmfPair (map (fun lh => np_power 10 (fst lh - 9)) two_bins
                   ++ [np_power 10 (snd (last two_bins (0, 0)) - 9)])
                  cmfs)
    /\ rows_of cmfs
       = map (fun row => map (mass_fraction_from row)
                             (seq 0 (S (length two_bins))))
             [[5; 5]].
Proof.
  apply (params_to_sfh_binned gamma_small gammainc_small five_each one_member
                              two_bins [1] [[0]] [[5; 5]]).
  - reflexivity.
  - reflexivity.
  - exact two_bins_proper.
  - discriminate.
  - exact five_each_masses.
  - discriminate.
  - constructor; [simpl; lra | constructor].
Defined.

(** ** Parametric rates: samples, assertions and signs *)

Lemma unzip3 (taus tages masses : list R) :
  length tages = length taus -> length masses = length taus ->
  taus = map (fun m => fst (fst m)) (combine (combine taus tages) masses)
  /\ tages = map (fun m => snd (fst m)) (combine (combine taus tages) masses)
  /\ masses = map snd (combine (combine taus tages) masses).
Proof.
  revert tages masses; induction taus as [| a taus IH];
    intros [| b tages] [| c masses] H1 H2; simpl in *; try discriminate.
  - repeat split.
  - destruct (IH tages masses) as (E1 & E2 & E3); [lia | lia |].
    repeat split; f_equal; assumption.
Qed.

Lemma np_power_nonneg (x y : R) : 0 <= x -> 0 <= y -> 0 <= np_power x y.
Proof.
  intros Hx Hy. unfold np_power.
  destruct (Rlt_dec 0 x) as [Hpos | Hn].
  - left. unfold Rpower. apply exp_pos.
  - destruct (Req_dec_T y (IZR (Int_part y))) as [Hint | _]; [| lra].
    assert (x = 0) by lra. subst x.
    assert (Hz : (0 <= Int_part y)%Z).
    { destruct (base_Int_part y) as [_ Hb].
      apply le_IZR. rewrite <- Hint. exact Hy. }
    destruct (Int_part y) as [| p | p]; simpl.
    + lra.
    + apply pow_le. lra.
    + lia.
Qed.

Lemma mask_assign_rows {A : Type} (f g : A -> R) (l : list A) :
  mask_assign 0 (map (fun x => Rltb x 0) (map f l)) (map g l)
  = map (fun a => if Rltb (f a) 0 then 0 else g a) l.
Proof.
  induction l as [| a l IH]; simpl; [reflexivity |].
  now rewrite IH.
Qed.

Section SfrFacts.

Variable gamma : R -> R.
Variable gammainc : R -> R -> R.

(** The value of [parametric_sfr] on a grid of lookback times, for scalar
    parameters and the mass given directly. *)
Lemma parametric_sfr_on_grid
    (tau tage power mass : R) (logmass : option npval) (times : list R) :
  parametric_sfr gamma gammainc (Scalar tau) (Scalar tage) power
                 (Some (Scalar mass)) logmass (Some times)
  = Ok (NdArray (map (fun t => if Rltb (tage - t) 0 then 0
                               else sfr_law gamma gammainc tau tage power mass t)
                     times)).
Proof.
  unfold parametric_sfr. simpl.
  rewrite !map_map.
  rewrite broadcast_same_length by now rewrite !length_map.
  rewrite zip_with_map. simpl.
  rewrite !map_map, !length_map, Nat.eqb_refl. simpl.
  do 2 f_equal.
  rewrite <- (map_map (fun t => tage - t) (fun x => Rltb x 0)).
  rewrite mask_assign_map, map_map.
  apply map_ext. intros t.
  destruct (Rltb (tage - t) 0); [lra |].
  apply psi_is_sfr_law.
Qed.

(** The value of [parametric_sfr] without [times], for arrays with one
    entry per sample. *)
Lemma parametric_sfr_samples (power : R) (l : list (R * R * R)) :
  parametric_sfr gamma gammainc
                 (NdArray (map (fun m => fst (fst m)) l))
                 (NdArray (map (fun m => snd (fst m)) l)) power
                 (Some (NdArray (map snd l))) None None
  = Ok (NdArray
          (map (fun m => if Rltb (snd (fst m)) 0 then 0
                         else sfr_law gamma gammainc (fst (fst m))
                                      (snd (fst m)) power (snd m) 0)
               l)).
Proof.
  unfold parametric_sfr.
  repeat (cbn [np_binop np_map bind];
          first [ rewrite broadcast_same_length
                    by (rewrite ?length_map; reflexivity)
                | rewrite zip_with_map
                | rewrite map_map ]).
  unfold np_lt0, np_setitem.
  rewrite !length_map, Nat.eqb_refl. cbn [bind np_map].
  do 2 f_equal.
  rewrite mask_assign_rows, map_map.
  apply map_ext. intros [[tau tage] mass]. cbn [fst snd].
  destruct (Rltb tage 0); [lra |].
  rewrite <- psi_is_sfr_law.
  replace (tage - 0) with tage by ring.
  unfold Rdiv. reflexivity.
Qed.

(** X15: without [times], arrays of [tau], [tage] and mass with one entry
    per sample give one rate per sample: the law at lookback time 0 for that
    sample's parameters, and 0 for a sample whose [tage] is negative. *)
Theorem parametric_sfr_vectorised
    (taus tages masses : list R) (power : R) :
  length tages = length taus -> length masses = length taus ->
  parametric_sfr gamma gammainc (NdArray taus) (NdArray tages) power
                 (Some (NdArray masses)) None None
  = Ok (NdArray
          (map (fun m => if Rltb (snd (fst m)) 0 then 0
                         else sfr_law gamma gammainc (fst (fst m))
                                      (snd (fst m)) power (snd m) 0)
               (combine (combine taus tages) masses))).
Proof.
  intros H1 H2.
  destruct (unzip3 taus tages masses H1 H2) as (E1 & E2 & E3).
  rewrite <- parametric_sfr_samples.
  rewrite <- E1, <- E2, <- E3. reflexivity.
Qed.

(** X16: with [times], [tau] and [tage] must each be a single value: an
    array of any other length fails the assertion, whatever the mass is. *)
Theorem parametric_sfr_times_needs_single
    (tau tage : npval) (power : R) (mass logmass : option npval)
    (times : list R) :
  len_atleast_1d tage <> 1%nat \/ len_atleast_1d tau <> 1%nat ->
  parametric_sfr gamma gammainc tau tage power mass logmass (Some times)
  = Raise AssertionError.
Proof.
  intros H. unfold parametric_sfr.
  destruct (Nat.eqb (len_atleast_1d tage) 1) eqn:Eg; [| reflexivity].
  destruct (Nat.eqb (len_atleast_1d tau) 1) eqn:Et; [| reflexivity].
  apply Nat.eqb_eq in Eg, Et. destruct H as [H | H]; contradiction.
Qed.


Lemma sfr_law_nonneg (tau tage power mass t : R) :
  0 < tau -> 0 <= power -> 0 <= mass -> t <= tage ->
  0 < gamma (power + 1) -> 0 < gammainc (power + 1) (tage / tau) ->
  0 <= sfr_law gamma gammainc tau tage power mass t.
Proof.
  intros Htau Hp Hm Ht Hg Hgi. unfold sfr_law.
  assert (Hx : 0 <= (tage - t) / tau).
  { apply Rmult_le_pos; [lra | left; now apply Rinv_0_lt_compat]. }
  pose proof (np_power_nonneg _ _ Hx Hp) as Hpow.
  pose proof (exp_pos (- ((tage - t) / tau))) as He.
  assert (Hden : 0 < tau * gamma (power + 1) * gammainc (power + 1) (tage / tau)).
  { apply Rmult_lt_0_compat; [apply Rmult_lt_0_compat |]; assumption. }
  apply Rmult_le_pos; [| left; now apply Rinv_0_lt_compat].
  apply Rmult_le_pos; [| lra].
  apply Rmult_le_pos; [| exact Hpow].
  lra.
Qed.

(** X18: on a grid of lookback times, for [tau > 0], a non-negative mass and
    power and positive values of the two special functions, no returned rate
    is negative, and the rate is exactly 0 at every time before the onset
    ([t > tage]). *)
Theorem parametric_sfr_nonnegative
    (tau tage power mass : R) (times : list R) :
  0 < tau -> 0 <= power -> 0 <= mass ->
  0 < gamma (power + 1) -> 0 < gammainc (power + 1) (tage / tau) ->
  exists sfr,
    parametric_sfr gamma gammainc (Scalar tau) (Scalar tage) power
                   (Some (Scalar mass)) None (Some times)
    = Ok (NdArray sfr)
    /\ Forall2 (fun t v => 0 <= v /\ (tage < t -> v = 0)) times sfr.
Proof.
  intros Htau Hp Hm Hg Hgi.
  eexists. split; [apply parametric_sfr_on_grid |].
  induction times as [| t times IH]; simpl; constructor; [| exact IH].
  unfold Rltb. destruct (Rlt_dec (tage - t) 0) as [Hlt | Hge].
  - split; [lra | reflexivity].
  - split; [| intros; lra].
    apply sfr_law_nonneg; try assumption. lra.
Qed.

End SfrFacts.

Lemma parametric_sfr_vectorised_witness :
  parametric_sfr gamma_small gammainc_small (NdArray [1; 2]) (NdArray [3; 4])
                 1 (Some (NdArray [5; 6])) None None
  = Ok (NdArray
          (map (fun m => if Rltb (snd (fst m)) 0 then 0
                         else sfr_law gamma_small gammainc_small (fst (fst m))
                                      (snd (fst m)) 1 (snd m) 0)
               (combine (combine [1; 2] [3; 4]) [5; 6]))).
Proof.
  apply (parametric_sfr_vectorised gamma_small gammainc_small
                                   [1; 2] [3; 4] [5; 6] 1); reflexivity.
Defined.

Lemma parametric_sfr_times_needs_single_witness :
  parametric_sfr gamma_small gammainc_small (Scalar 1) (NdArray [3; 4]) 1
                 (Some (Scalar 5)) None (Some [0; 1])
  = Raise AssertionError.
Proof.
  apply (parametric_sfr_times_needs_single gamma_small gammainc_small
           (Scalar 1) (NdArray [3; 4]) 1 (Some (Scalar 5)) None [0; 1]).
  left. simpl. discriminate.
Defined.

(** ** Mass-weighted age: where the two computations lie *)

Lemma trapz_ext (f g : R -> R) (t : list R) :
  Forall (fun v => f v = g v) t ->
  trapz (map f t) t = trapz (map g t) t.
Proof.
  induction t as [| t0 [| t1 t] IH]; intros H; try reflexivity.
  inversion H as [| ? ? H0 H']; subst. inversion H' as [| ? ? H1 _]; subst.
  change (trapz (map f (t0 :: t1 :: t)) (t0 :: t1 :: t))
    with ((t1 - t0) * (f t0 + f t1) / 2 + trapz (map f (t1 :: t)) (t1 :: t)).
  change (trapz (map g (t0 :: t1 :: t)) (t0 :: t1 :: t))
    with ((t1 - t0) * (g t0 + g t1) / 2 + trapz (map g (t1 :: t)) (t1 :: t)).
  rewrite (IH H'), H0, H1. reflexivity.
Qed.

(** On a non-decreasing grid inside [0, T] and for non-negative weights,
    the trapezoid sum of [v * w v] is at most [T] times that of [w]. *)
Lemma trapz_weighted_le (w : R -> R) (T : R) (t : list R) :
  non_decreasing t ->
  Forall (fun v => 0 <= v <= T /\ 0 <= w v) t ->
  0 <= trapz (map (fun v => v * w v) t) t <= T * trapz (map w t) t
  /\ 0 <= trapz (map w t) t.
Proof.
  induction t as [| t0 [| t1 t] IH]; intros Hmono H.
  - simpl. lra.
  - simpl. lra.
  - inversion H as [| ? ? [H0 W0] H']; subst.
    inversion H' as [| ? ? [H1 W1] _]; subst.
    destruct Hmono as [Hle Hmono].
    destruct (IH Hmono H') as [[IH1 IH2] IH3].
    change (trapz (map (fun v => v * w v) (t0 :: t1 :: t)) (t0 :: t1 :: t))
      with ((t1 - t0) * (t0 * w t0 + t1 * w t1) / 2
            + trapz (map (fun v => v * w v) (t1 :: t)) (t1 :: t)).
    change (trapz (map w (t0 :: t1 :: t)) (t0 :: t1 :: t))
      with ((t1 - t0) * (w t0 + w t1) / 2 + trapz (map w (t1 :: t)) (t1 :: t)).
    assert (0 <= t0 * w t0 <= T * w t0) by nra.
    assert (0 <= t1 * w t1 <= T * w t1) by nra.
    assert (0 <= (t1 - t0) * (t0 * w t0 + t1 * w t1)) by (apply Rmult_le_pos; lra).
    assert ((t1 - t0) * (t0 * w t0 + t1 * w t1)
            <= (t1 - t0) * (T * w t0 + T * w t1))
      by (apply Rmult_le_compat_l; lra).
    assert (0 <= (t1 - t0) * (w t0 + w t1)) by (apply Rmult_le_pos; lra).
    repeat split; nra.
Qed.

(** With a first step of positive length and a positive value at its end,
    the trapezoid sum of a non-negative function is positive. *)
Lemma trapz_pos (f : R -> R) (t0 t1 : R) (t : list R) :
  t0 < t1 -> non_decreasing (t1 :: t) ->
  Forall (fun v => 0 <= f v) (t0 :: t1 :: t) -> 0 < f t1 ->
  0 < trapz (map f (t0 :: t1 :: t)) (t0 :: t1 :: t).
Proof.
  intros Hlt Hmono H Hpos.
  inversion H as [| ? ? F0 H']; subst.
  change (trapz (map f (t0 :: t1 :: t)) (t0 :: t1 :: t))
    with ((t1 - t0) * (f t0 + f t1) / 2 + trapz (map f (t1 :: t)) (t1 :: t)).
  assert (Hrest : 0 <= trapz (map f (t1 :: t)) (t1 :: t)).
  { clear - Hmono H'. revert t1 Hmono H'.
    induction t as [| t2 t IH]; intros t1 Hmono H'; [simpl; lra |].
    inversion H' as [| ? ? F1 H'']; subst.
    inversion H'' as [| ? ? F2 _]; subst.
    destruct Hmono as [Hle Hmono].
    change (trapz (map f (t1 :: t2 :: t)) (t1 :: t2 :: t))
      with ((t2 - t1) * (f t1 + f t2) / 2 + trapz (map f (t2 :: t)) (t2 :: t)).
    specialize (IH t2 Hmono H'').
    assert (0 <= (t2 - t1) * (f t1 + f t2)) by (apply Rmult_le_pos; lra).
    lra. }
  assert (0 < (t1 - t0) * (f t0 + f t1)) by (apply Rmult_lt_0_compat; lra).
  lra.
Qed.

Lemma grid_non_decreasing (h : R) (a n : nat) :
  0 <= h -> non_decreasing (map (grid h) (seq a n)).
Proof.
  intros Hh. revert a; induction n as [| n IH]; intros a; [exact I |].
  destruct n as [| n]; [exact I |].
  change (map (grid h) (seq a (S (S n))))
    with (grid h a :: grid h (S a) :: map (grid h) (seq (S (S a)) n)).
  split.
  - unfold grid. rewrite S_INR. nra.
  - exact (IH (S a)).
Qed.

Lemma grid_in_range (h : R) (m : nat) :
  0 <= h ->
  Forall (fun v => 0 <= v <= INR m * h) (map (grid h) (seq 0 (S m))).
Proof.
  intros Hh. apply Forall_forall. intros v Hin.
  apply in_map_iff in Hin. destruct Hin as (k & <- & Hk).
  apply in_seq in Hk. unfold grid.
  assert (0 <= INR k) by apply pos_INR.
  assert (INR k <= INR m) by (apply le_INR; lia).
  split; nra.
Qed.

Lemma np_power_succ (v power : R) :
  0 <= v -> 0 <= power -> np_power v (power + 1) = v * np_power v power.
Proof.
  intros Hv Hp. unfold np_power.
  destruct (Rlt_dec 0 v) as [Hpos | Hn].
  - rewrite Rpower_plus, Rpower_1 by exact Hpos. ring.
  - assert (v = 0) by lra. subst v. rewrite Rmult_0_l.
    destruct (Req_dec_T (power + 1) (IZR (Int_part (power + 1))))
      as [Hint | _]; [| reflexivity].
    assert (Hz : (1 <= Int_part (power + 1))%Z).
    { apply le_IZR. rewrite <- Hint. lra. }
    destruct (Int_part (power + 1)) as [| p | p]; try lia.
    simpl. apply pow_i. lia.
Qed.

Lemma weight_nonneg (tau power v : R) :
  0 <= power -> 0 <= v -> 0 <= np_power v power * exp (- v / tau).
Proof.
  intros Hp Hv. apply Rmult_le_pos; [now apply np_power_nonneg |].
  left. apply exp_pos.
Qed.

Lemma weight_pos (tau power v : R) :
  0 < v -> 0 < np_power v power * exp (- v / tau).
Proof.
  intros Hv. apply Rmult_lt_0_compat; [| apply exp_pos].
  rewrite np_power_pos by exact Hv. unfold Rpower. apply exp_pos.
Qed.

(** With moreover a first step that ends before [T] and carries weight,
    the trapezoid sum of [v * w v] stays strictly below [T] times that of
    [w]. *)
Lemma trapz_weighted_lt (w : R -> R) (T t0 t1 : R) (t : list R) :
  t0 < t1 -> t1 < T -> 0 < w t1 -> non_decreasing (t1 :: t) ->
  Forall (fun v => 0 <= v <= T /\ 0 <= w v) (t0 :: t1 :: t) ->
  trapz (map (fun v => v * w v) (t0 :: t1 :: t)) (t0 :: t1 :: t)
  < T * trapz (map w (t0 :: t1 :: t)) (t0 :: t1 :: t).
Proof.
  intros H01 H1T Hw1 Hmono H.
  pose proof (Forall_inv H) as [Ht0 Hw0]. cbv beta in Ht0, Hw0.
  pose proof (Forall_inv_tail H) as H'.
  destruct (trapz_weighted_le w T (t1 :: t) Hmono H') as [[_ Hrest] _].
  change (trapz (map (fun v => v * w v) (t0 :: t1 :: t)) (t0 :: t1 :: t))
    with ((t1 - t0) * (t0 * w t0 + t1 * w t1) / 2
          + trapz (map (fun v => v * w v) (t1 :: t)) (t1 :: t)).
  change (trapz (map w (t0 :: t1 :: t)) (t0 :: t1 :: t))
    with ((t1 - t0) * (w t0 + w t1) / 2 + trapz (map w (t1 :: t)) (t1 :: t)).
  assert (Ha : t0 * w t0 <= T * w t0) by (apply Rmult_le_compat_r; lra).
  assert (Hb : t1 * w t1 < T * w t1) by (apply Rmult_lt_compat_r; lra).
  assert (Hc : (t1 - t0) * (t0 * w t0 + t1 * w t1)
               < (t1 - t0) * (T * w t0 + T * w t1))
    by (apply Rmult_lt_compat_l; lra).
  lra.
Qed.

(** X19: for [tau > 0], [tage/tau] between 1/2 and 10, power 0 or 1 and a
    grid of at least three points, the numerical mass-weighted age lies
    strictly between 0 and [tage]. *)
Theorem parametric_mwa_numerical_in_range (tau tage power : R) (n : nat) :
  0 < tau -> 1 / 2 <= tage / tau <= 10 -> power = 0 \/ power = 1 ->
  (3 <= n)%nat ->
  0 < parametric_mwa_numerical tau tage power n < tage.
Proof.
  intros Htau Hx Hpow Hn.
  assert (Htage : 0 < tage).
  { replace tage with (tage / tau * tau) by (field; lra). nra. }
  assert (Hp : 0 <= power) by (destruct Hpow; lra).
  destruct n as [| [| [| m]]]; try lia. clear Hn.
  unfold parametric_mwa_numerical. rewrite linspace0_grid.
  assert (Hm : 2 <= INR (S (S m))).
  { change 2 with (INR 2). apply le_INR. lia. }
  set (h := tage / INR (S (S m))).
  assert (Hh : 0 < h)
    by (apply Rmult_lt_0_compat; [lra | apply Rinv_0_lt_compat; lra]).
  assert (Etage : INR (S (S m)) * h = tage) by (unfold h; field; lra).
  assert (HhT : h < tage) by nra.
  set (t := map (grid h) (seq 0 (S (S (S m))))).
  set (w := fun v => np_power v power * exp (- v / tau)).
  assert (Hmono : non_decreasing t) by (apply grid_non_decreasing; lra).
  assert (Hrange : Forall (fun v => 0 <= v <= tage) t).
  { rewrite <- Etage. apply grid_in_range. lra. }
  assert (Hw : Forall (fun v => 0 <= v <= tage /\ 0 <= w v) t).
  { eapply Forall_impl; [| exact Hrange]. intros v Hv. split; [exact Hv |].
    apply weight_nonneg; lra. }
  rewrite (trapz_ext (fun v => np_power v (power + 1) * exp (- v / tau))
                     (fun v => v * w v)).
  2:{ eapply Forall_impl; [| exact Hrange]. intros v Hv. cbv beta.
      unfold w. rewrite np_power_succ by lra. ring. }
  fold w.
  assert (Et : t = grid h 0 :: grid h 1
                   :: map (grid h) (seq 2 (S m))) by reflexivity.
  assert (E0 : grid h 0 = 0) by (unfold grid; simpl; ring).
  assert (E1 : grid h 1 = h) by (unfold grid; simpl; ring).
  rewrite E0, E1 in Et.
  assert (Hmono1 : non_decreasing (h :: map (grid h) (seq 2 (S m)))).
  { rewrite Et in Hmono. destruct Hmono as [_ H]. exact H. }
  assert (Hw1 : 0 < w h) by (apply weight_pos; exact Hh).
  assert (Hden : 0 < trapz (map w t) t).
  { rewrite Et. apply trapz_pos; try assumption.
    rewrite <- Et. eapply Forall_impl; [| exact Hw]. now intros v [_ H]. }
  assert (Hnumpos : 0 < trapz (map (fun v => v * w v) t) t).
  { rewrite Et. apply (trapz_pos (fun v => v * w v)); try assumption.
    - rewrite <- Et. eapply Forall_impl; [| exact Hw].
      intros v [[H0 _] H]. cbv beta. now apply Rmult_le_pos.
    - apply Rmult_lt_0_compat; assumption. }
  assert (Hnum : trapz (map (fun v => v * w v) t) t
                 < tage * trapz (map w t) t).
  { rewrite Et. apply trapz_weighted_lt; try assumption.
    rewrite <- Et. exact Hw. }
  set (num := trapz (map (fun v => v * w v) t) t) in *.
  set (den := trapz (map w t) t) in *.
  assert (Hq : 0 < num / den < tage).
  { split.
    - apply Rmult_lt_0_compat; [exact Hnumpos | now apply Rinv_0_lt_compat].
    - apply (Rmult_lt_reg_r den); [exact Hden |].
      unfold Rdiv. rewrite Rmult_assoc, Rinv_l by lra. lra. }
  lra.
Qed.

Lemma parametric_mwa_numerical_in_range_witness :
  0 < parametric_mwa_numerical 4 (137 / 10) 1 1000 < 137 / 10.
Proof.
  apply (parametric_mwa_numerical_in_range 4 (137 / 10) 1 1000).
  - lra.
  - lra.
  - right. reflexivity.
  - apply Nat.leb_le. reflexivity.
Defined.

Lemma exp_pos_lower3 (x : R) :
  0 <= x -> 1 + x + x ^ 2 / 2 + x ^ 3 / 6 <= exp x.
Proof.
  intros Hx. destruct (exp_taylor_bound 3 x) as [H _].
  specialize (H Hx).
  replace (exp_taylor 3 x) with (1 + x + x ^ 2 / 2 + x ^ 3 / 6) in H
    by (simpl; field).
  exact H.
Qed.

(** [(2 + x) exp(-x) - (2 - x)] and its derivative. *)
Lemma delayed_gap_deriv (c : R) :
  derivable_pt_lim (fun x => (2 + x) * exp (- x) - (2 - x)) c
                   (1 - (1 + c) * exp (- c)).
Proof.
  apply (derivable_pt_lim_ext
           (minus_fct (mult_fct (plus_fct (fct_cte 2) id)
                                (comp exp (opp_fct id)))
                      (minus_fct (fct_cte 2) id))).
  { intros y. reflexivity. }
  replace (1 - (1 + c) * exp (- c))
    with (((0 + 1) * comp exp (opp_fct id) c
           + plus_fct (fct_cte 2) id c * (exp (opp_fct id c) * - 1))
          - (0 - 1))
    by (unfold comp, opp_fct, plus_fct, fct_cte, id; ring).
  apply derivable_pt_lim_minus.
  - apply derivable_pt_lim_mult.
    + apply derivable_pt_lim_plus;
        [apply derivable_pt_lim_const | apply derivable_pt_lim_id].
    + apply derivable_pt_lim_comp.
      * apply derivable_pt_lim_opp, derivable_pt_lim_id.
      * apply derivable_pt_lim_exp.
  - apply derivable_pt_lim_minus;
      [apply derivable_pt_lim_const | apply derivable_pt_lim_id].
Qed.

Lemma exp_neg_below_one (x : R) : 0 < x -> (1 + x) * exp (- x) < 1.
Proof.
  intros Hx. pose proof (exp_ineq1 x ltac:(lra)) as H.
  pose proof (exp_pos (- x)) as He.
  pose proof (exp_neg_times x) as Hm.
  nra.
Qed.

Lemma delayed_gap_pos (x : R) : 0 < x -> 2 - x < (2 + x) * exp (- x).
Proof.
  intros Hx.
  destruct (MVT_cor2 (fun x => (2 + x) * exp (- x) - (2 - x))
                     (fun c => 1 - (1 + c) * exp (- c)) 0 x Hx)
    as (c & Hc & Hin).
  { intros c _. apply delayed_gap_deriv. }
  cbv beta in Hc.
  replace (- 0) with 0 in Hc by ring. rewrite exp_0 in Hc.
  pose proof (exp_neg_below_one c ltac:(lra)) as Hd.
  assert (0 < (1 - (1 + c) * exp (- c)) * (x - 0)) by (apply Rmult_lt_0_compat; lra).
  lra.
Qed.

Section MwaFacts.

Variable gamma : R -> R.
Variable gammainc : R -> R -> R.

(** X20: for the exponential ([power = 0]) and the delayed-exponential
    ([power = 1]) history, with [tau > 0] and [tage > 0] and the special
    functions taking their values at [tage/tau], the closed form puts the
    mass-weighted age strictly between 0 and [tage]. *)
Theorem parametric_mwa_in_range (tau tage power : R) :
  0 < tau -> 0 < tage ->
  special_functions_at gamma gammainc (tage / tau) ->
  power = 0 \/ power = 1 ->
  0 < parametric_mwa gamma gammainc tau tage power < tage.
Proof.
  intros Htau Htage (G2 & G3 & P1 & P2 & P3) Hpow.
  assert (Hx : 0 < tage / tau)
    by (apply Rmult_lt_0_compat; [lra | now apply Rinv_0_lt_compat]).
  assert (Etage : tage = tage / tau * tau) by (field; lra).
  set (x := tage / tau) in *.
  pose proof (exp_pos (- x)) as He.
  pose proof (exp_neg_below_one x Hx) as HA.
  pose proof (exp_ineq1 (- x) ltac:(lra)) as Hlow.
  unfold parametric_mwa. fold x.
  destruct Hpow as [-> | ->].
  - replace (0 + 2) with 2 by ring. replace (0 + 1) with 1 by ring.
    rewrite G2, P1, P2.
    assert (HB : 0 < 1 - exp (- x)) by nra.
    assert (Hq : 0 < (1 - (1 + x) * exp (- x)) / (1 - exp (- x)) < x).
    { split.
      - apply Rmult_lt_0_compat; [lra | now apply Rinv_0_lt_compat].
      - apply (Rmult_lt_reg_r (1 - exp (- x))); [exact HB |].
        unfold Rdiv. rewrite Rmult_assoc, Rinv_l by lra. nra. }
    replace ((1 - (1 + x) * exp (- x)) * 1 / (1 - exp (- x)) * tau)
      with ((1 - (1 + x) * exp (- x)) / (1 - exp (- x)) * tau)
      by (unfold Rdiv; ring).
    nra.
  - replace (1 + 2) with 3 by ring. replace (1 + 1) with 2 by ring.
    rewrite G3, P2, P3.
    pose proof (delayed_gap_pos x Hx) as Hgap.
    assert (HC : 0 < 1 - (1 + x + x ^ 2 / 2) * exp (- x)).
    { pose proof (exp_pos_lower3 x ltac:(lra)) as H3.
      pose proof (exp_neg_times x) as Hm.
      assert (0 < x ^ 3) by (apply pow_lt; exact Hx).
      assert ((1 + x + x ^ 2 / 2) * exp (- x) < exp x * exp (- x)).
      { apply Rmult_lt_compat_r; [exact He | lra]. }
      lra. }
    assert (Hq : 0 < (1 - (1 + x + x ^ 2 / 2) * exp (- x)) * 2
                     / (1 - (1 + x) * exp (- x)) < x).
    { split.
      - apply Rmult_lt_0_compat; [lra |]. apply Rinv_0_lt_compat. lra.
      - apply (Rmult_lt_reg_r (1 - (1 + x) * exp (- x))); [lra |].
        unfold Rdiv. rewrite Rmult_assoc, Rinv_l by lra. nra. }
    nra.
Qed.

End MwaFacts.

Lemma special_functions_small_pos :
  0 < gamma_small (0 + 1) /\ 0 < gammainc_small (0 + 1) (1 / 1).
Proof.
  unfold gamma_small, gammainc_small.
  destruct (Req_dec_T (0 + 1) 3); [lra |].
  destruct (Req_dec_T (0 + 1) 1); [| lra].
  split; [lra |].
  pose proof (exp_neg_below_one (1 / 1) ltac:(lra)).
  pose proof (exp_pos (- (1 / 1))). nra.
Qed.

Lemma parametric_sfr_nonnegative_witness :
  exists sfr,
    parametric_sfr gamma_small gammainc_small (Scalar 1) (Scalar 1) 0
                   (Some (Scalar 5)) None (Some [0; 2])
    = Ok (NdArray sfr)
    /\ Forall2 (fun t v => 0 <= v /\ (1 < t -> v = 0)) [0; 2] sfr.
Proof.
  apply (parametric_sfr_nonnegative gamma_small gammainc_small 1 1 0 5 [0; 2]).
  - lra.
  - lra.
  - lra.
  - exact (proj1 special_functions_small_pos).
  - exact (proj2 special_functions_small_pos).
Defined.

Lemma parametric_mwa_in_range_witness :
  0 < parametric_mwa gamma_small gammainc_small 4 (137 / 10) 1 < 137 / 10.
Proof.
  apply (parametric_mwa_in_range gamma_small gammainc_small 4 (137 / 10) 1).
  - lra.
  - lra.
  - apply special_functions_small.
  - right. reflexivity.
Defined.

(** ** Quantiles: bounds, order and errors *)

(** *** Sorting *)

Lemma insert_sorted_length (x : R) (l : list R) :
  length (insert_sorted x l) = S (length l).
Proof.
  induction l as [| y l IH]; simpl; [reflexivity |].
  destruct (Rle_dec x y); simpl; [reflexivity | now rewrite IH].
Qed.

Lemma sort_length (l : list R) : length (sort l) = length l.
Proof.
  induction l as [| x l IH]; simpl; [reflexivity |].
  fold (sort l). now rewrite insert_sorted_length, IH.
Qed.

Lemma insert_sorted_Forall (P : R -> Prop) (x : R) (l : list R) :
  P x -> Forall P l -> Forall P (insert_sorted x l).
Proof.
  intros Hx. induction 1 as [| y l Hy Hl IH]; simpl.
  - constructor; [exact Hx | constructor].
  - destruct (Rle_dec x y).
    + constructor; [exact Hx |]. constructor; assumption.
    + constructor; assumption.
Qed.

Lemma sort_Forall (P : R -> Prop) (l : list R) :
  Forall P l -> Forall P (sort l).
Proof.
  induction 1 as [| x l Hx Hl IH]; simpl; [constructor |].
  fold (sort l). now apply insert_sorted_Forall.
Qed.

Lemma insert_sorted_non_decreasing (x : R) (l : list R) :
  non_decreasing l -> non_decreasing (insert_sorted x l).
Proof.
  induction l as [| y l IH]; intros Hl; [exact I |].
  simpl insert_sorted. destruct (Rle_dec x y) as [Hle | Hgt].
  - split; assumption.
  - destruct l as [| z l].
    + simpl. split; [lra | exact I].
    + destruct Hl as [Hyz Hl]. specialize (IH Hl).
      simpl insert_sorted in IH |- *.
      destruct (Rle_dec x z).
      * split; [lra |]. exact IH.
      * split; [exact Hyz |]. exact IH.
Qed.

Lemma sort_non_decreasing (l : list R) : non_decreasing (sort l).
Proof.
  induction l as [| x l IH]; [exact I |].
  simpl. fold (sort l). now apply insert_sorted_non_decreasing.
Qed.

Lemma non_decreasing_nth (l : list R) (i j : nat) :
  non_decreasing l -> (i <= j)%nat -> (j < length l)%nat ->
  nth i l 0 <= nth j l 0.
Proof.
  revert i j; induction l as [| x l IH]; intros i j Hl Hij Hj;
    [simpl in Hj; lia |].
  destruct j as [| j].
  - assert (i = 0%nat) by lia. subst. lra.
  - simpl in Hj.
    assert (Htail : non_decreasing l)
      by (destruct l; [exact I | now destruct Hl]).
    destruct i as [| i].
    + apply Rle_trans with (nth 0 l 0).
      * destruct l as [| y l]; [simpl in Hj; lia |]. now destruct Hl.
      * apply IH; [exact Htail | lia | lia].
    + apply IH; [exact Htail | lia | lia].
Qed.

(** *** The virtual index of a percentile *)

Lemma virtual_index (v : R) (m : nat) :
  0 <= v <= INR m ->
  let lo := Z.to_nat (Int_part v) in
  (lo <= m)%nat /\ INR lo <= v < INR lo + 1.
Proof.
  intros [H0 Hm] lo.
  destruct (base_Int_part v) as [Hb1 Hb2].
  assert (Hk : (0 <= Int_part v)%Z).
  { apply Z.lt_succ_r. apply lt_IZR. rewrite succ_IZR. lra. }
  assert (Elo : INR lo = IZR (Int_part v)).
  { unfold lo. rewrite INR_IZR_INZ, Znat.Z2Nat.id by exact Hk. reflexivity. }
  split.
  - apply INR_le. lra.
  - lra.
Qed.

Lemma percentile_1d_range (a b : R) (col : list R) (q : R) :
  col <> [] -> 0 <= q <= 100 ->
  Forall (fun v => a <= v <= b) col ->
  a <= percentile_1d col q <= b.
Proof.
  intros Hne Hq Hcol. unfold percentile_1d.
  pose proof (sort_Forall _ _ Hcol) as Hs.
  pose proof (sort_length col) as Hl.
  set (s := sort col) in *.
  assert (Hn : (0 < length s)%nat)
    by (rewrite Hl; destruct col; [now elim Hne | simpl; lia]).
  set (m := (length s - 1)%nat).
  assert (Hv : 0 <= q / 100 * INR m <= INR m).
  { pose proof (pos_INR m). split; nra. }
  destruct (virtual_index _ m Hv) as [Hlo Hg].
  set (lo := Z.to_nat (Int_part (q / 100 * INR m))) in *.
  rewrite Forall_forall in Hs.
  assert (H1 : a <= nth lo s 0 <= b) by (apply Hs, nth_In; lia).
  assert (H2 : a <= nth (Nat.min (lo + 1) m) s 0 <= b)
    by (apply Hs, nth_In; lia).
  nra.
Qed.

Lemma percentile_1d_monotone (col : list R) (q1 q2 : R) :
  col <> [] -> 0 <= q1 -> q1 <= q2 -> q2 <= 100 ->
  percentile_1d col q1 <= percentile_1d col q2.
Proof.
  intros Hne H1 H12 H2. unfold percentile_1d.
  pose proof (sort_non_decreasing col) as Hs.
  pose proof (sort_length col) as Hl.
  set (s := sort col) in *.
  assert (Hn : (0 < length s)%nat)
    by (rewrite Hl; destruct col; [now elim Hne | simpl; lia]).
  set (m := (length s - 1)%nat).
  pose proof (pos_INR m) as Hm.
  assert (Hv1 : 0 <= q1 / 100 * INR m <= INR m) by (split; nra).
  assert (Hv2 : 0 <= q2 / 100 * INR m <= INR m) by (split; nra).
  assert (Hv12 : q1 / 100 * INR m <= q2 / 100 * INR m) by nra.
  destruct (virtual_index _ m Hv1) as [Hlo1 Hg1].
  destruct (virtual_index _ m Hv2) as [Hlo2 Hg2].
  set (v1 := q1 / 100 * INR m) in *. set (v2 := q2 / 100 * INR m) in *.
  set (lo1 := Z.to_nat (Int_part v1)) in *.
  set (lo2 := Z.to_nat (Int_part v2)) in *.
  assert (Hlo12 : (lo1 <= lo2)%nat).
  { apply INR_le. apply Rnot_lt_le. intros Hc.
    assert (INR lo2 + 1 <= INR lo1).
    { rewrite <- S_INR. apply le_INR. apply INR_lt in Hc. lia. }
    lra. }
  assert (Hup1 : nth lo1 s 0 <= nth (Nat.min (lo1 + 1) m) s 0)
    by (apply non_decreasing_nth; [exact Hs | lia | lia]).
  assert (Hup2 : nth lo2 s 0 <= nth (Nat.min (lo2 + 1) m) s 0)
    by (apply non_decreasing_nth; [exact Hs | lia | lia]).
  destruct (Nat.eq_dec lo1 lo2) as [E | Hneq].
  - rewrite <- E in *. nra.
  - assert (Hmid : nth (Nat.min (lo1 + 1) m) s 0 <= nth lo2 s 0)
      by (apply non_decreasing_nth; [exact Hs | lia | lia]).
    nra.
Qed.

(** *** Interpolated curves *)

Lemma interp_at_range (a b x : R) (xp fp : list R) :
  a <= 0 <= b -> Forall (fun v => a <= v <= b) fp ->
  match xp with [] => True | x0 :: _ => x0 <= x end ->
  a <= interp_at x xp fp <= b.
Proof.
  intros H0. revert fp; induction xp as [| x0 xp IH]; intros fp Hfp Hx.
  - destruct fp; simpl; lra.
  - destruct fp as [| y0 fp]; [destruct xp; simpl; lra |].
    inversion Hfp as [| ? ? Hy0 Hfp']; subst.
    destruct xp as [| x1 xp]; [simpl; exact Hy0 |].
    destruct fp as [| y1 fp]; [simpl; exact Hy0 |].
    inversion Hfp' as [| ? ? Hy1 _]; subst.
    change (interp_at x (x0 :: x1 :: xp) (y0 :: y1 :: fp))
      with (if Rle_dec x1 x then interp_at x (x1 :: xp) (y1 :: fp)
            else if Req_dec_T x0 x then y0
                 else (y1 - y0) / (x1 - x0) * (x - x0) + y0).
    destruct (Rle_dec x1 x) as [Hle | Hgt].
    + apply IH; assumption.
    + destruct (Req_dec_T x0 x) as [_ | Hne]; [exact Hy0 |].
      assert (Hd : 0 < x1 - x0) by lra.
      set (lam := (x - x0) / (x1 - x0)).
      assert (Hlam : 0 <= lam <= 1).
      { unfold lam. split.
        - apply Rmult_le_pos; [lra | left; now apply Rinv_0_lt_compat].
        - apply (Rmult_le_reg_r (x1 - x0)); [exact Hd |].
          unfold Rdiv. rewrite Rmult_assoc, Rinv_l by lra. lra. }
      replace ((y1 - y0) / (x1 - x0) * (x - x0) + y0)
        with (lam * y1 + (1 - lam) * y0) by (unfold lam; field; lra).
      split; nra.
Qed.

Lemma interp_point_range (a b x : R) (xp fp : list R) :
  a <= 0 <= b -> Forall (fun v => a <= v <= b) fp ->
  a <= interp_point xp fp 0 0 x <= b.
Proof.
  intros H0 Hfp. unfold interp_point.
  destruct xp as [| x0 rest]; [exact H0 |].
  destruct (Rlt_dec (last rest x0) x); [exact H0 |].
  destruct (Rlt_dec x x0) as [| Hge]; [exact H0 |].
  apply interp_at_range; [exact H0 | exact Hfp | lra].
Qed.

Lemma duplicate_Forall (P : R -> Prop) (row : list R) :
  Forall P row -> Forall P (duplicate row).
Proof.
  induction 1 as [| s row Hs _ IH]; [constructor |].
  change (duplicate (s :: row)) with (s :: s :: duplicate row).
  repeat constructor; assumption.
Qed.

Lemma map_nth_seq {A : Type} (g : R -> A) (l : list R) :
  map (fun j => g (nth j l 0)) (seq 0 (length l)) = map g l.
Proof.
  induction l as [| x l IH]; [reflexivity |].
  simpl. f_equal. rewrite <- seq_shift, map_map. exact IH.
Qed.

(** The columns of the members' curves: for every grid time, the members'
    interpolated rates at that time. *)
Lemma curves_columns (tvec : list R) (members : list (agebins_t * list R)) :
  transpose (length tvec) (map (member_curve tvec) members)
  = map (fun t =>
           map (fun member =>
                  interp_point (flatten_bins (fst member))
                               (duplicate (snd member)) 0 0 t)
               members)
        tvec.
Proof.
  unfold transpose.
  rewrite <- (map_nth_seq
                (fun t => map (fun member =>
                                 interp_point (flatten_bins (fst member))
                                              (duplicate (snd member)) 0 0 t)
                              members)).
  apply map_ext_in. intros j Hj. apply in_seq in Hj.
  unfold column. rewrite map_map. apply map_ext. intros member.
  apply member_curve_nth. lia.
Qed.

Section QuantileValues.

Variable quantile :
  list (list R) -> list R -> list R -> result (list (list R)).

(** The unweighted result, entry by entry. *)
Lemma sfh_quantiles_value
    (nbin : nat) (tvec : list R) (bins : list agebins_t)
    (sfrs : list (list R)) (q : list R) :
  bins <> [] -> (0 < nbin)%nat ->
  matching_shapes nbin bins sfrs ->
  Forall (fun p => 0 <= p <= 100) q ->
  sfh_quantiles quantile tvec bins sfrs None q
  = Ok (map (fun p =>
               map (fun t =>
                      percentile_1d
                        (map (fun member =>
                                interp_point (flatten_bins (fst member))
                                             (duplicate (snd member)) 0 0 t)
                             (combine bins sfrs))
                        p)
                   tvec)
            q).
Proof.
  intros Hne Hnbin Hshape Hq. unfold sfh_quantiles.
  rewrite (sfh_samples_ok nbin) by assumption.
  rewrite bind_ok. unfold np_percentile_axis0.
  rewrite percentiles_in_range by exact Hq.
  rewrite curves_columns. f_equal.
  apply map_ext. intros p. now rewrite map_map.
Qed.

Lemma members_nonempty (nbin : nat) (bins : list agebins_t)
    (sfrs : list (list R)) :
  bins <> [] -> matching_shapes nbin bins sfrs -> combine bins sfrs <> [].
Proof.
  intros Hne (Hlen & _ & _).
  destruct bins as [| b bins]; [now elim Hne |].
  destruct sfrs as [| s sfrs]; [discriminate | discriminate].
Qed.

(** X21: with the documented shapes, bins in order and percentiles within
    [0, 100], rates between 0 and [B] give quantiles between 0 and [B]: in
    particular no quantile of non-negative rates is negative. *)
Theorem sfh_quantiles_bounded
    (nbin : nat) (tvec : list R) (bins : list agebins_t)
    (sfrs : list (list R)) (q : list R) (B : R) :
  bins <> [] -> (0 < nbin)%nat ->
  matching_shapes nbin bins sfrs ->
  Forall ordered_bins bins ->
  Forall (fun p => 0 <= p <= 100) q ->
  Forall (Forall (fun s => 0 <= s <= B)) sfrs ->
  exists qq,
    sfh_quantiles quantile tvec bins sfrs None q = Ok qq
    /\ Forall (Forall (fun v => 0 <= v <= B)) qq.
Proof.
  intros Hne Hnbin Hshape _ Hq Hrates.
  eexists. split; [apply (sfh_quantiles_value nbin); assumption |].
  pose proof (members_nonempty nbin bins sfrs Hne Hshape) as Hmem.
  assert (HB : 0 <= 0 <= B).
  { destruct Hshape as (Hlen & _ & Hs).
    destruct sfrs as [| s sfrs]; [destruct bins; [now elim Hne | discriminate] |].
    pose proof (Forall_inv Hrates) as Hrow. pose proof (Forall_inv Hs) as Hsl.
    destruct s as [| s0 s]; [simpl in Hsl; lia |].
    pose proof (Forall_inv Hrow) as Hs0. cbv beta in Hs0. lra. }
  apply Forall_forall. intros row Hrow.
  apply in_map_iff in Hrow. destruct Hrow as (p & <- & Hp).
  rewrite Forall_forall in Hq. specialize (Hq p Hp).
  apply Forall_forall. intros v Hv.
  apply in_map_iff in Hv. destruct Hv as (t & <- & _).
  apply percentile_1d_range; [| exact Hq |].
  - destruct (combine bins sfrs); [now elim Hmem | discriminate].
  - apply Forall_forall. intros v Hv.
    apply in_map_iff in Hv. destruct Hv as ([b s] & <- & Hin).
    apply interp_point_range; [exact HB |].
    apply duplicate_Forall. simpl.
    rewrite Forall_forall in Hrates. apply Hrates.
    eapply in_combine_r, Hin.
Qed.

(** X22: with the documented shapes and bins in order, the rows of the
    result are ordered like their percentiles: for [0 <= p1 <= p2 <= 100]
    the [p1] curve lies on or below the [p2] curve at every grid time. *)
Theorem sfh_quantiles_ordered
    (nbin : nat) (tvec : list R) (bins : list agebins_t)
    (sfrs : list (list R)) (p1 p2 : R) :
  bins <> [] -> (0 < nbin)%nat ->
  matching_shapes nbin bins sfrs ->
  Forall ordered_bins bins ->
  0 <= p1 -> p1 <= p2 -> p2 <= 100 ->
  exists r1 r2,
    sfh_quantiles quantile tvec bins sfrs None [p1; p2] = Ok [r1; r2]
    /\ length r1 = length tvec
    /\ Forall2 Rle r1 r2.
Proof.
  intros Hne Hnbin Hshape _ H1 H12 H2.
  assert (Hq : Forall (fun p => 0 <= p <= 100) [p1; p2]).
  { constructor; [lra |]. constructor; [lra | constructor]. }
  rewrite (sfh_quantiles_value nbin) by assumption.
  cbn [map]. eexists; eexists. split; [reflexivity | split].
  - now rewrite length_map.
  - pose proof (members_nonempty nbin bins sfrs Hne Hshape) as Hmem.
    induction tvec as [| t tvec IH]; simpl; constructor; [| exact IH].
    apply percentile_1d_monotone; try assumption.
    destruct (combine bins sfrs); [now elim Hmem | discriminate].
Qed.

(** X23: an ensemble of [M >= 1] members that are all the same (bins in
    order, one rate per bin) has every quantile equal to the common
    curve. *)
Theorem sfh_quantiles_identical_members
    (tvec : list R) (b : agebins_t) (s : list R) (M : nat) (q : list R) :
  b <> [] -> ordered_bins b -> length s = length b -> (0 < M)%nat ->
  Forall (fun p => 0 <= p <= 100) q ->
  sfh_quantiles quantile tvec (repeat b M) (repeat s M) None q
  = Ok (map (fun _ => member_curve tvec (b, s)) q).
Proof.
  intros Hb _ Hs HM Hq.
  rewrite (sfh_quantiles_value (length b)).
  - f_equal. apply map_ext_in. intros p Hp.
    rewrite Forall_forall in Hq. specialize (Hq p Hp).
    unfold member_curve. apply map_ext. intros t. cbn [fst snd].
    set (c := interp_point (flatten_bins b) (duplicate s) 0 0 t).
    assert (Hc : c <= percentile_1d
                        (map (fun member =>
                                interp_point (flatten_bins (fst member))
                                             (duplicate (snd member)) 0 0 t)
                             (combine (repeat b M) (repeat s M))) p <= c).
    { apply percentile_1d_range; [| exact Hq |].
      - destruct M; [lia | discriminate].
      - apply Forall_forall. intros v Hv.
        apply in_map_iff in Hv. destruct Hv as ([b' s'] & <- & Hin).
        pose proof (in_combine_l _ _ _ _ Hin) as Hb'.
        pose proof (in_combine_r _ _ _ _ Hin) as Hs'.
        apply repeat_spec in Hb', Hs'. subst b' s'. cbn [fst snd].
        fold c. lra. }
    lra.
  - destruct M; [lia | discriminate].
  - destruct b; [now elim Hb | simpl; lia].
  - repeat split.
    + now rewrite !repeat_length.
    + apply Forall_forall. intros x Hx. now apply repeat_spec in Hx; subst.
    + apply Forall_forall. intros x Hx. now apply repeat_spec in Hx; subst.
  - exact Hq.
Qed.


End QuantileValues.

Lemma sample_bins_ordered : Forall ordered_bins sample_bins.
Proof.
  constructor; [| constructor]. simpl. split; [lra | split; exact I].
Qed.

Lemma sfh_quantiles_bounded_witness :
  exists qq,
    sfh_quantiles quantile_spec sample_tvec sample_bins sample_sfrs None [50]
    = Ok qq
    /\ Forall (Forall (fun v => 0 <= v <= 3)) qq.
Proof.
  apply (sfh_quantiles_bounded quantile_spec 1 sample_tvec sample_bins
                               sample_sfrs [50] 3).
  - discriminate.
  - lia.
  - exact sample_shapes.
  - exact sample_bins_ordered.
  - constructor; [lra | constructor].
  - constructor; [| constructor]. constructor; [lra | constructor].
Defined.

Lemma sfh_quantiles_ordered_witness :
  exists r1 r2,
    sfh_quantiles quantile_spec sample_tvec sample_bins sample_sfrs None
                  [16; 84]
    = Ok [r1; r2]
    /\ length r1 = length sample_tvec
    /\ Forall2 Rle r1 r2.
Proof.
  apply (sfh_quantiles_ordered quantile_spec 1 sample_tvec sample_bins
                               sample_sfrs 16 84).
  - discriminate.
  - lia.
  - exact sample_shapes.
  - exact sample_bins_ordered.
  - lra.
  - lra.
  - lra.
Defined.

Lemma sfh_quantiles_identical_members_witness :
  sfh_quantiles quantile_spec sample_tvec (repeat [(0, 1)] 2) (repeat [3] 2)
                None [50]
  = Ok (map (fun _ => member_curve sample_tvec ([(0, 1)], [3])) [50]).
Proof.
  apply (sfh_quantiles_identical_members quantile_spec sample_tvec
                                         [(0, 1)] [3] 2 [50]).
  - discriminate.
  - simpl. split; [lra | split; exact I].
  - reflexivity.
  - lia.
  - constructor; [lra | constructor].
Defined.

